(** * A shallow embedding of [OptimizedSQLiteManager]

    The manager of [memory_mcp_server/optimized_sqlite_manager.py] keeps a
    knowledge graph in two SQLite tables and drives them through one
    [sqlite3] connection.  The embedding has three layers:

    - the text codec of the observations column ([','.join] on write,
      [split(',')] guarded by truthiness on read) and SQLite's [LIKE];
    - the two tables and the SQL statements the manager issues, as
      functions on a database value;
    - the connection, with the database as committed and the database as
      the connection sees it, and the manager's methods in a state and
      exception monad over it.

    A character of a Python [str] is an [ascii] here; limits of the backend
    (number of host parameters, pattern length) are outside the model.  The
    order in which a SELECT with [IN] hands out its rows is the query
    planner's: it is an argument, [Sql.arrangement], of the two methods
    that issue such statements. *)

From Stdlib Require Import String Ascii List Bool Arith Lia.
From stdpp Require Import base gmap strings list sorting.
Import ListNotations.

Local Open Scope string_scope.
Local Open Scope list_scope.

#[local] Set Warnings "-clear-no-such-hyp".

(** ** Observation codec *)

Module Codec.

Definition delimiter : ascii := ","%char.

(** [sep.join(parts)] with [sep = ','] *)
Fixpoint join (parts : list string) : string :=
  match parts with
  | [] => ""
  | [x] => x
  | x :: rest => x +:+ String delimiter (join rest)
  end.

(** [s.split(',')]: never empty, [''.split(',') = ['']] *)
Fixpoint split (s : string) : list string :=
  match s with
  | EmptyString => [""]
  | String c s' =>
      if Ascii.eqb c delimiter then "" :: split s'
      else match split s' with
           | [] => [String c ""]
           | h :: t => String c h :: t
           end
  end.

(** [row['observations'].split(',') if row['observations'] else []] *)
Definition parse_observations (field : string) : list string :=
  match field with
  | EmptyString => []
  | _ => split field
  end.

(** A string without the delimiter. *)
Fixpoint comma_free (s : string) : bool :=
  match s with
  | EmptyString => true
  | String c s' => negb (Ascii.eqb c delimiter) && comma_free s'
  end.

(** Observation lists that the column holds without loss: no element
    contains the delimiter, and the list is not the single empty string
    (which joins to the empty field). *)
Definition storable (obs : list string) : Prop :=
  Forall (fun o => comma_free o = true) obs /\ obs <> [""].

End Codec.

(** ** SQLite's LIKE

    The operator as the manager uses it: no ESCAPE clause and no
    [case_sensitive_like] pragma, so ['%'] stands for any run of
    characters, ['_'] for one character, and every other character
    compares after folding the ASCII letters to lower case. *)

Module Like.

Definition to_lower (c : ascii) : ascii :=
  let n := nat_of_ascii c in
  if ((65 <=? n) && (n <=? 90))%nat then ascii_of_nat (n + 32)%nat else c.

Definition match_all : ascii := "%"%char.
Definition match_one : ascii := "_"%char.

Fixpoint like (pattern : string) : string -> bool :=
  match pattern with
  | EmptyString => fun text => match text with EmptyString => true | _ => false end
  | String p pattern' =>
      if Ascii.eqb p match_all then
        fix skip (text : string) : bool :=
          like pattern' text ||
          match text with
          | EmptyString => false
          | String _ text' => skip text'
          end
      else if Ascii.eqb p match_one then
        fun text =>
          match text with
          | EmptyString => false
          | String _ text' => like pattern' text'
          end
      else
        fun text =>
          match text with
          | EmptyString => false
          | String c text' => Ascii.eqb (to_lower p) (to_lower c) && like pattern' text'
          end
  end.

(** SQLite hands pattern and text to LIKE as C strings: each ends at its
    first NUL character. *)
Definition nul : ascii := Ascii.zero.

Fixpoint c_string (s : string) : string :=
  match s with
  | EmptyString => ""
  | String c s' => if Ascii.eqb c nul then "" else String c (c_string s')
  end.

(** [text LIKE pattern], as SQLite evaluates it. *)
Definition like_operator (pattern text : string) : bool :=
  like (c_string pattern) (c_string text).

(** The text holds no NUL character. *)
Fixpoint nul_free (s : string) : bool :=
  match s with
  | EmptyString => true
  | String c s' => negb (Ascii.eqb c nul) && nul_free s'
  end.

(** [f"%{query}%"] *)
Definition search_pattern (query : string) : string :=
  String match_all (query +:+ String match_all "").

(** The query holds neither wildcard. *)
Fixpoint wildcard_free (s : string) : bool :=
  match s with
  | EmptyString => true
  | String c s' =>
      negb (Ascii.eqb c match_all) && negb (Ascii.eqb c match_one) && wildcard_free s'
  end.

Fixpoint fold_case (s : string) : string :=
  match s with
  | EmptyString => ""
  | String c s' => String (to_lower c) (fold_case s')
  end.

(** [needle in text], the literal containment of Python. *)
Definition contains (needle text : string) : Prop :=
  exists before after, text = before +:+ needle +:+ after.

(** Whether [text] starts with [needle], letter for letter. *)
Fixpoint starts_with (needle text : string) : bool :=
  match needle, text with
  | EmptyString, _ => true
  | String a needle', String b text' => Ascii.eqb a b && starts_with needle' text'
  | String _ _, EmptyString => false
  end.

(** Python's [needle in text] as a function. *)
Fixpoint containsb (needle text : string) : bool :=
  starts_with needle text ||
  match text with
  | EmptyString => false
  | String _ text' => containsb needle text'
  end.

(** Containment up to the case of ASCII letters. *)
Definition contains_nocase (needle text : string) : Prop :=
  exists before middle after,
    text = before +:+ middle +:+ after /\ fold_case middle = fold_case needle.

End Like.

(** ** Records that cross the interface *)

(** Modelled from the spec: [Entity] of [interfaces.py], which is not among
    the sources, with [from_dict] and [to_dict].  The dictionaries carry the
    record's three fields, so a dictionary and its record are identified. *)
Record Entity := mkEntity {
  name : string;
  entityType : string;
  observations : list string
}.

(** Modelled from the spec: [Relation] of [interfaces.py], which is not
    among the sources; the key [from] is the attribute [from_]. *)
Record Relation := mkRelation {
  from_ : string;
  to : string;
  relationType : string
}.

(** One item of the batch of [add_observations]:
    [obs["entityName"]], [obs["contents"]]. *)
Record Observation := mkObservation {
  entityName : string;
  contents : list string
}.

(** One item of the batch of [delete_observations]:
    [deletion["entityName"]], [deletion["observations"]]. *)
Module Deletion.
Record t := mk {
  entityName : string;
  observations : list string
}.
End Deletion.

(** [{"entities": entities, "relations": relations}] *)
Record Graph := mkGraph {
  entities : list Entity;
  relations : list Relation
}.

(** The exceptions the manager raises. *)
Inductive exception : Type :=
| EntityNotFoundError (entity_name : string)
| EntityAlreadyExistsError (entity_name : string)
| ValueError (message : string).

(** ** The two tables and the statements issued on them *)

Module Sql.

(** [entities (name TEXT PRIMARY KEY, entity_type, observations)] *)
Record entity_row := mkEntityRow {
  row_name : string;
  entity_type : string;
  row_observations : string
}.

(** [relations (from_entity, to_entity, relation_type)], the three columns
    together being the primary key.  Foreign keys are declared but never
    switched on, so they constrain nothing. *)
Record relation_row := mkRelationRow {
  from_entity : string;
  to_entity : string;
  relation_type : string
}.

#[global] Instance entity_row_eq_dec : EqDecision entity_row.
Proof. solve_decision. Defined.

#[global] Instance relation_row_eq_dec : EqDecision relation_row.
Proof. solve_decision. Defined.

(** Rows are kept in insertion order. *)
Record database := mkDatabase {
  entities_table : list entity_row;
  relations_table : list relation_row
}.

Definition names_of (rows : list entity_row) : list string := map row_name rows.

(** [x IN (?, ..., ?)]; false on the empty list. *)
Definition sql_in (x : string) (params : list string) : bool :=
  bool_decide (x ∈ params).

(** [SELECT 1 FROM entities WHERE name = ?] followed by [fetchone()] *)
Definition entity_exists (n : string) (d : database) : bool :=
  sql_in n (names_of (entities_table d)).

(** [SELECT observations FROM entities WHERE name = ?] followed by
    [fetchone()] *)
Definition select_observations (n : string) (d : database) : option string :=
  row_observations <$> find (fun r => bool_decide (row_name r = n)) (entities_table d).

(** [INSERT INTO entities (name, entity_type, observations) VALUES (?, ?, ?)];
    [None] is the [IntegrityError] of the primary key. *)
Definition insert_entity (r : entity_row) (d : database) : option database :=
  if entity_exists (row_name r) d then None
  else Some (mkDatabase (entities_table d ++ [r]) (relations_table d)).

(** [INSERT INTO relations ... ON CONFLICT DO NOTHING], with [rowcount]. *)
Definition insert_relation_or_ignore (r : relation_row) (d : database)
  : nat * database :=
  if bool_decide (r ∈ relations_table d) then (0, d)
  else (1, mkDatabase (entities_table d) (relations_table d ++ [r])).

(** [UPDATE entities SET observations = ? WHERE name = ?] *)
Definition update_observations (field n : string) (d : database) : database :=
  mkDatabase
    (map (fun r => if bool_decide (row_name r = n)
                   then mkEntityRow (row_name r) (entity_type r) field
                   else r)
         (entities_table d))
    (relations_table d).

(** [DELETE FROM relations WHERE from_entity = ? OR to_entity = ?] *)
Definition delete_relations_of (n : string) (d : database) : database :=
  mkDatabase
    (entities_table d)
    (filter (fun r => ¬ (from_entity r = n ∨ to_entity r = n)) (relations_table d)).

(** [DELETE FROM entities WHERE name = ?] *)
Definition delete_entity (n : string) (d : database) : database :=
  mkDatabase
    (filter (fun r => row_name r ≠ n) (entities_table d))
    (relations_table d).

(** [DELETE FROM relations WHERE from_entity = ? AND to_entity = ?
    AND relation_type = ?] *)
Definition delete_relation (r : relation_row) (d : database) : database :=
  mkDatabase (entities_table d) (filter (fun r' => r' ≠ r) (relations_table d)).

(** A SELECT without ORDER BY hands out its rows in the order the query
    planner settles on.  [SELECT * FROM t] walks the table, which is
    insertion order here; a statement with [IN] walks an index or the
    table, as the planner decides from the statement, the number of
    parameters and the store.  An [arrangement] stands for the planner: for
    each of the three statements with [IN] that the manager issues, some
    reordering of the rows selected. *)
Record arrangement := mkArrangement {
  arrange_entities_in :
    list string -> database -> list entity_row -> list entity_row;
  arrange_relations_in :
    list string -> database -> list relation_row -> list relation_row;
  arrange_relations_among :
    list string -> database -> list relation_row -> list relation_row;
  arrange_entities_in_perm :
    forall params d rows, arrange_entities_in params d rows ≡ₚ rows;
  arrange_relations_in_perm :
    forall params d rows, arrange_relations_in params d rows ≡ₚ rows;
  arrange_relations_among_perm :
    forall params d rows, arrange_relations_among params d rows ≡ₚ rows
}.

(** The order of the index of [name]. *)
Definition name_order (r1 r2 : entity_row) : Prop :=
  String.leb (row_name r1) (row_name r2) = true.

(** The order of the index of the three columns of a relation. *)
Definition triple_order (r1 r2 : relation_row) : Prop :=
  match String.compare (from_entity r1) (from_entity r2) with
  | Lt => True
  | Gt => False
  | Eq =>
      match String.compare (to_entity r1) (to_entity r2) with
      | Lt => True
      | Gt => False
      | Eq => String.leb (relation_type r1) (relation_type r2) = true
      end
  end.

#[global] Instance name_order_dec (r1 r2 : entity_row) : Decision (name_order r1 r2).
Proof. unfold name_order. apply _. Defined.

#[global] Instance triple_order_dec (r1 r2 : relation_row) : Decision (triple_order r1 r2).
Proof.
  unfold triple_order.
  destruct (String.compare (from_entity r1) (from_entity r2));
    [destruct (String.compare (to_entity r1) (to_entity r2))| |]; apply _.
Defined.

(** The planner that answers every [IN] through the primary-key index, as
    SQLite does for short lists of parameters. *)
Definition index_order : arrangement :=
  mkArrangement
    (fun _ _ rows => merge_sort name_order rows)
    (fun _ _ rows => merge_sort triple_order rows)
    (fun _ _ rows => merge_sort triple_order rows)
    (fun _ _ rows => merge_sort_Permutation name_order rows)
    (fun _ _ rows => merge_sort_Permutation triple_order rows)
    (fun _ _ rows => merge_sort_Permutation triple_order rows).

(** [SELECT * FROM entities WHERE name IN (?, ..., ?)] *)
Definition select_entities_in (plan : arrangement) (params : list string)
    (d : database) : list entity_row :=
  arrange_entities_in plan params d
    (filter (fun r => sql_in (row_name r) params = true) (entities_table d)).

(** [SELECT * FROM relations WHERE from_entity IN (...) AND to_entity IN (...)]
    with the same parameters bound twice ([names * 2]). *)
Definition select_relations_in (plan : arrangement) (params : list string)
    (d : database) : list relation_row :=
  arrange_relations_in plan params d
    (filter (fun r => sql_in (from_entity r) params && sql_in (to_entity r) params = true)
            (relations_table d)).

(** [SELECT * FROM entities WHERE name LIKE ? OR entity_type LIKE ?
    OR observations LIKE ?], one pattern bound three times. *)
Definition row_like (pattern : string) (r : entity_row) : bool :=
  Like.like_operator pattern (row_name r)
  || Like.like_operator pattern (entity_type r)
  || Like.like_operator pattern (row_observations r).

Definition select_entities_like (pattern : string) (d : database)
  : list entity_row :=
  filter (fun r => row_like pattern r = true) (entities_table d).

(** [SELECT name FROM entities WHERE name IN (?, ..., ?)], as a subquery:
    only what it holds is asked, not in which order. *)
Definition select_names_in (params : list string) (d : database) : list string :=
  names_of (filter (fun r => sql_in (row_name r) params = true) (entities_table d)).

(** [SELECT * FROM relations
     WHERE from_entity IN (SELECT name FROM entities WHERE name IN (...))
     AND to_entity IN (SELECT name FROM entities WHERE name IN (...))] *)
Definition select_relations_among (plan : arrangement) (params : list string)
    (d : database) : list relation_row :=
  arrange_relations_among plan params d
    (filter (fun r => sql_in (from_entity r) (select_names_in params d)
                      && sql_in (to_entity r) (select_names_in params d) = true)
            (relations_table d)).

End Sql.

(** ** The connection

    [sqlite3] opens a transaction before the first INSERT, UPDATE or DELETE
    and keeps it open until [commit()] or [rollback()].  [committed] is the
    database file; [view] is what statements on the connection read and
    write. *)

Record connection := mkConnection {
  committed : Sql.database;
  view : Sql.database
}.

(** A method call: it reads and writes the connection, and either returns
    or raises.  A raised exception leaves the connection as it was at the
    [raise]. *)
Definition M (A : Type) : Type := connection -> (exception + A) * connection.

Definition ret {A} (a : A) : M A := fun c => (inr a, c).

Definition raise {A} (e : exception) : M A := fun c => (inl e, c).

Definition bind {A B} (m : M A) (k : A -> M B) : M B :=
  fun c =>
    match m c with
    | (inl e, c') => (inl e, c')
    | (inr a, c') => k a c'
    end.

Notation "x <~ m ;; k" := (bind m (fun x => k))
  (at level 100, m at next level, right associativity).
Notation "m ;;; k" := (bind m (fun _ => k))
  (at level 100, right associativity).

(** [try: body / except Exception as e: handler] *)
Definition try_except {A} (body : M A) (handler : exception -> M A) : M A :=
  fun c =>
    match body c with
    | (inl e, c') => handler e c'
    | (inr a, c') => (inr a, c')
    end.

(** [cursor.execute] of a statement that only reads. *)
Definition query {A} (q : Sql.database -> A) : M A :=
  fun c => (inr (q (view c)), c).

(** [cursor.execute] of a statement that writes. *)
Definition execute {A} (stmt : Sql.database -> A * Sql.database) : M A :=
  fun c => let '(a, d) := stmt (view c) in (inr a, mkConnection (committed c) d).

(** [cursor.execute] of an INSERT under [try / except sqlite3.IntegrityError];
    the result tells whether the row went in. *)
Definition execute_checked (stmt : Sql.database -> option Sql.database) : M bool :=
  fun c =>
    match stmt (view c) with
    | Some d => (inr true, mkConnection (committed c) d)
    | None => (inr false, c)
    end.

(** [conn.commit()] *)
Definition commit : M unit :=
  fun c => (inr tt, mkConnection (view c) (view c)).

(** [conn.rollback()] *)
Definition rollback : M unit :=
  fun c => (inr tt, mkConnection (committed c) (committed c)).

(** ** The manager *)

Definition row_of_entity (e : Entity) : Sql.entity_row :=
  Sql.mkEntityRow (name e) (entityType e) (Codec.join (observations e)).

Definition entity_of_row (r : Sql.entity_row) : Entity :=
  mkEntity (Sql.row_name r) (Sql.entity_type r)
           (Codec.parse_observations (Sql.row_observations r)).

Definition row_of_relation (r : Relation) : Sql.relation_row :=
  Sql.mkRelationRow (from_ r) (to r) (relationType r).

Definition relation_of_row (r : Sql.relation_row) : Relation :=
  mkRelation (Sql.from_entity r) (Sql.to_entity r) (Sql.relation_type r).

(** [initialize()] on a store that has its tables: the CREATE ... IF NOT
    EXISTS statements change nothing, and the method commits. *)
Definition initialize : M unit := commit.

(** [cleanup()]: closing the connection drops its open transaction; the
    next call connects to the file again. *)
Definition cleanup : M unit :=
  fun c => (inr tt, mkConnection (committed c) (committed c)).

(** The loop of [create_entities]; [created] is [created_entities]. *)
Fixpoint create_entities_loop (batch : list Entity) (created : list Entity)
  : M (list Entity) :=
  match batch with
  | [] => ret created
  | entity :: rest =>
      inserted <~ execute_checked (Sql.insert_entity (row_of_entity entity)) ;;
      if inserted : bool
      then create_entities_loop rest (created ++ [entity])
      else (rollback ;;; raise (EntityAlreadyExistsError (name entity)))
  end.

Definition create_entities (batch : list Entity) : M (list Entity) :=
  created <~ create_entities_loop batch [] ;;
  commit ;;;
  ret created.

(** The loop of [create_relations]; [created] is [created_relations]. *)
Fixpoint create_relations_loop (batch : list Relation) (created : list Relation)
  : M (list Relation) :=
  match batch with
  | [] => ret created
  | relation :: rest =>
      from_found <~ query (Sql.entity_exists (from_ relation)) ;;
      if negb from_found then raise (EntityNotFoundError (from_ relation)) else
      to_found <~ query (Sql.entity_exists (to relation)) ;;
      if negb to_found then raise (EntityNotFoundError (to relation)) else
      rowcount <~ execute (Sql.insert_relation_or_ignore (row_of_relation relation)) ;;
      create_relations_loop rest
        (if (0 <? rowcount)%nat then created ++ [relation] else created)
  end.

Definition create_relations (batch : list Relation) : M (list Relation) :=
  try_except
    (created <~ create_relations_loop batch [] ;;
     commit ;;;
     ret created)
    (fun e => rollback ;;; raise e).

Definition read_graph : M Graph :=
  rows <~ query Sql.entities_table ;;
  edges <~ query Sql.relations_table ;;
  ret (mkGraph (map entity_of_row rows) (map relation_of_row edges)).

(** The loop of [add_observations]; [added] is [added_observations]. *)
Fixpoint add_observations_loop (batch : list Observation)
    (added : gmap string (list string)) : M (gmap string (list string)) :=
  match batch with
  | [] => ret added
  | obs :: rest =>
      result <~ query (Sql.select_observations (entityName obs)) ;;
      match result with
      | None => raise (EntityNotFoundError (entityName obs))
      | Some field =>
          let current_obs := Codec.parse_observations field ++ contents obs in
          execute (fun d =>
            (tt, Sql.update_observations (Codec.join current_obs) (entityName obs) d)) ;;;
          add_observations_loop rest (<[entityName obs := contents obs]> added)
      end
  end.

Definition add_observations (batch : list Observation)
  : M (gmap string (list string)) :=
  added <~ add_observations_loop batch ∅ ;;
  commit ;;;
  ret added.

Fixpoint delete_entities_loop (entityNames : list string) : M unit :=
  match entityNames with
  | [] => ret tt
  | n :: rest =>
      execute (fun d => (tt, Sql.delete_relations_of n d)) ;;;
      execute (fun d => (tt, Sql.delete_entity n d)) ;;;
      delete_entities_loop rest
  end.

Definition delete_entities (entityNames : list string) : M unit :=
  delete_entities_loop entityNames ;;;
  commit.

Fixpoint delete_observations_loop (deletions : list Deletion.t) : M unit :=
  match deletions with
  | [] => ret tt
  | deletion :: rest =>
      result <~ query (Sql.select_observations (Deletion.entityName deletion)) ;;
      match result with
      | Some field =>
          let current_obs := Codec.parse_observations field in
          let updated_obs :=
            filter (fun obs => obs ∉ Deletion.observations deletion) current_obs in
          execute (fun d =>
            (tt, Sql.update_observations (Codec.join updated_obs)
                   (Deletion.entityName deletion) d)) ;;;
          delete_observations_loop rest
      | None => delete_observations_loop rest
      end
  end.

Definition delete_observations (deletions : list Deletion.t) : M unit :=
  delete_observations_loop deletions ;;;
  commit.

Fixpoint delete_relations_loop (batch : list Relation) : M unit :=
  match batch with
  | [] => ret tt
  | relation :: rest =>
      execute (fun d => (tt, Sql.delete_relation (row_of_relation relation) d)) ;;;
      delete_relations_loop rest
  end.

Definition delete_relations (batch : list Relation) : M unit :=
  delete_relations_loop batch ;;;
  commit.

Definition open_nodes (plan : Sql.arrangement) (names : list string) : M Graph :=
  rows <~ query (Sql.select_entities_in plan names) ;;
  edges <~ query (Sql.select_relations_in plan names) ;;
  ret (mkGraph (map entity_of_row rows) (map relation_of_row edges)).

(** The first loop of [search_nodes]: the entities found, and the Python
    set [entity_names] of their names. *)
Fixpoint collect_matches (rows : list Sql.entity_row)
    (found : list Entity) (entity_names : gset string)
  : list Entity * gset string :=
  match rows with
  | [] => (found, entity_names)
  | row :: rest =>
      let entity := entity_of_row row in
      collect_matches rest (found ++ [entity]) ({[name entity]} ∪ entity_names)
  end.

Definition search_nodes (plan : Sql.arrangement) (query_string : string)
  : M Graph :=
  if bool_decide (query_string = "") then
    raise (ValueError "Search query cannot be empty")
  else
    rows <~ query (Sql.select_entities_like (Like.search_pattern query_string)) ;;
    let '(found, entity_names) := collect_matches rows [] ∅ in
    edges <~ query (Sql.select_relations_among plan (elements entity_names)) ;;
    ret (mkGraph found (map relation_of_row edges)).

(** ** Where the store lives

    [__init__] takes the path of the parsed URL.  [urlparse] is library
    code: the path component is the input here.  So are [pathlib] and
    [os.makedirs], whose answers depend on the file system: what they
    answer for a path is an input too. *)

Module Location.

Definition separator : ascii := "/"%char.

(** [path.lstrip('/')] *)
Fixpoint lstrip (path : string) : string :=
  match path with
  | EmptyString => ""
  | String c rest => if Ascii.eqb c separator then lstrip rest else path
  end.

(** ['/' in path] *)
Fixpoint has_separator (path : string) : bool :=
  match path with
  | EmptyString => false
  | String c rest => Ascii.eqb c separator || has_separator rest
  end.

(** [str(Path(path).absolute())] followed by [os.makedirs] of its directory
    with [exist_ok=True]: either the absolute path, on the right, or, on
    the left, the class of the exception that one of the two calls raises
    (a NUL in the path, a parent that is a file, a name too long). *)
Definition library : Type := string -> string + string.

(** What [__init__] raises: its own exception, or the library's. *)
Inductive failure : Type :=
| Raised (e : exception)
| RaisedByLibrary (class_name : string).

(** [self.db_path]: either the absolute form of a path with directories,
    whose parent directory is made, or a plain file name. *)
Inductive db_path : Type :=
| Absolute (path : string)
| Filename (path : string).

(** The body of [__init__], from [parsed_url.path] on. *)
Definition init (lib : library) (parsed_path : string) : failure + db_path :=
  if bool_decide (parsed_path = "") then
    inl (Raised (ValueError "Database path not specified in URL"))
  else
    let path := lstrip parsed_path in
    if has_separator path then
      match lib path with
      | inl class_name => inl (RaisedByLibrary class_name)
      | inr absolute => inr (Absolute absolute)
      end
    else inr (Filename path).

(** A run of separators. *)
Fixpoint separators (k : nat) : string :=
  match k with
  | O => ""
  | S k' => String separator (separators k')
  end.

End Location.

(** ** Notions used in the statements *)

(** Both ends of a relation are names of stored entities. *)
Definition ends_exist (names : list string) (r : Relation) : Prop :=
  from_ r ∈ names /\ to r ∈ names.

(** The row after one item of the batch of [add_observations]: the item's
    contents go after what the row's field reads as, and the whole is
    joined again. *)
Definition append_contents (obs : Observation) (r : Sql.entity_row)
  : Sql.entity_row :=
  if bool_decide (Sql.row_name r = entityName obs)
  then Sql.mkEntityRow (Sql.row_name r) (Sql.entity_type r)
         (Codec.join (Codec.parse_observations (Sql.row_observations r)
                      ++ contents obs))
  else r.

(** The contents of the items of a batch that are addressed to [n], in
    batch order. *)
Definition contents_for (n : string) (batch : list Observation)
  : list (list string) :=
  map contents (filter (fun o => entityName o = n) batch).

(** What the schema keeps true of a database: names are a key of the
    entities, triples a key of the relations; and what the manager keeps
    true on top: a relation joins stored entities. *)
Record consistent (d : Sql.database) : Prop := mkConsistent {
  unique_names : NoDup (Sql.names_of (Sql.entities_table d));
  unique_triples : NoDup (Sql.relations_table d);
  ends_stored :
    forall r, r ∈ Sql.relations_table d ->
      Sql.from_entity r ∈ Sql.names_of (Sql.entities_table d)
      /\ Sql.to_entity r ∈ Sql.names_of (Sql.entities_table d)
}.

(** Two databases with the same names, in the same order, and the same
    relations; they differ at most by types and observations. *)
Definition same_keys (d d' : Sql.database) : Prop :=
  Sql.names_of (Sql.entities_table d) = Sql.names_of (Sql.entities_table d')
  /\ Sql.relations_table d = Sql.relations_table d'.

(** The calls a client can make. *)
Inductive call : Type :=
| Initialize
| Cleanup
| CreateEntities (batch : list Entity)
| CreateRelations (batch : list Relation)
| ReadGraph
| AddObservations (batch : list Observation)
| DeleteEntities (entityNames : list string)
| DeleteObservations (deletions : list Deletion.t)
| DeleteRelations (batch : list Relation)
| OpenNodes (plan : Sql.arrangement) (names : list string)
| SearchNodes (plan : Sql.arrangement) (query_string : string).

(** The connection after a call, whether it returned or raised. *)
Definition connection_after (k : call) (c : connection) : connection :=
  match k with
  | Initialize => snd (initialize c)
  | Cleanup => snd (cleanup c)
  | CreateEntities batch => snd (create_entities batch c)
  | CreateRelations batch => snd (create_relations batch c)
  | ReadGraph => snd (read_graph c)
  | AddObservations batch => snd (add_observations batch c)
  | DeleteEntities entityNames => snd (delete_entities entityNames c)
  | DeleteObservations deletions => snd (delete_observations deletions c)
  | DeleteRelations batch => snd (delete_relations batch c)
  | OpenNodes plan names => snd (open_nodes plan names c)
  | SearchNodes plan query_string => snd (search_nodes plan query_string c)
  end.

(** The row after one item of the batch of [delete_observations]: the
    listed values are filtered out of what the row's field reads as, and
    the rest is joined again. *)
Definition prune (deletion : Deletion.t) (r : Sql.entity_row) : Sql.entity_row :=
  if bool_decide (Sql.row_name r = Deletion.entityName deletion)
  then Sql.mkEntityRow (Sql.row_name r) (Sql.entity_type r)
         (Codec.join
            (filter (fun obs => obs ∉ Deletion.observations deletion)
                    (Codec.parse_observations (Sql.row_observations r))))
  else r.

(** All the values that the items of a batch addressed to [n] list. *)
Definition removed_for (n : string) (deletions : list Deletion.t) : list string :=
  concat (map Deletion.observations
              (filter (fun d => Deletion.entityName d = n) deletions)).

(** Two results that hold the same entities and the same relations, each
    as often, whatever the order of their rows. *)
Definition same_graph (g g' : Graph) : Prop :=
  entities g ≡ₚ entities g' /\ relations g ≡ₚ relations g'.

(** A query made of ['%'] only. *)
Fixpoint only_match_all (s : string) : bool :=
  match s with
  | EmptyString => true
  | String c s' => Ascii.eqb c Like.match_all && only_match_all s'
  end.

(** ** Stores used in the examples *)

Definition empty_database : Sql.database := Sql.mkDatabase [] [].

(** The connection right after [initialize()] on a new file. *)
Definition fresh_connection : connection :=
  mkConnection empty_database empty_database.

Definition sample_database : Sql.database :=
  Sql.mkDatabase
    [Sql.mkEntityRow "Alice" "person" "a,b"; Sql.mkEntityRow "Bob" "person" ""]
    [Sql.mkRelationRow "Alice" "Bob" "knows"].

Definition sample_connection : connection :=
  mkConnection sample_database sample_database.

(** A store filled in the order Zed, Alice, Mid. *)
Definition two_rooms_database : Sql.database :=
  Sql.mkDatabase
    [Sql.mkEntityRow "Zed" "person" "z"; Sql.mkEntityRow "Alice" "person" "";
     Sql.mkEntityRow "Mid" "place" ""]
    [Sql.mkRelationRow "Zed" "Alice" "knows"; Sql.mkRelationRow "Alice" "Mid" "in";
     Sql.mkRelationRow "Mid" "Zed" "hosts"].

Definition two_rooms_connection : connection :=
  mkConnection two_rooms_database two_rooms_database.

(** The connections a client can bring about, from a new file. *)
Inductive reachable : connection -> Prop :=
| reachable_fresh : reachable fresh_connection
| reachable_after (k : call) (c : connection) :
    reachable c -> reachable (connection_after k c).

(** * Properties *)

(** ** The codec of the observations column *)

Section CodecFacts.

Import Codec.

Lemma split_not_nil (s : string) : split s <> [].
Proof.
  destruct s as [|c s]; simpl; [discriminate|].
  destruct (Ascii.eqb c delimiter); [discriminate|].
  destruct (split s); discriminate.
Qed.

Lemma join_cons (x : string) (rest : list string) :
  rest <> [] -> join (x :: rest) = x +:+ String delimiter (join rest).
Proof. destruct rest; [congruence | reflexivity]. Qed.

(** Joining what [split] produced gives the text back, commas included. *)
Lemma join_split (s : string) : join (split s) = s.
Proof.
  induction s as [|c s IH]; [reflexivity|].
  simpl split. destruct (Ascii.eqb c delimiter) eqn:E.
  - apply Ascii.eqb_eq in E; subst c.
    rewrite join_cons by apply split_not_nil. simpl. now rewrite IH.
  - destruct (split s) as [|h t] eqn:Hs; [now destruct (split_not_nil s)|].
    destruct t as [|h' t].
    + simpl in *. now rewrite IH.
    + rewrite join_cons by discriminate. rewrite join_cons in IH by discriminate.
      rewrite <- IH. reflexivity.
Qed.

Lemma join_parse_observations (field : string) :
  join (parse_observations field) = field.
Proof. destruct field; [reflexivity|]. apply join_split. Qed.

Lemma split_comma_free (s : string) : comma_free s = true -> split s = [s].
Proof.
  induction s as [|c s IH]; [reflexivity|].
  simpl. intros [Hc Hs]%andb_true_iff.
  destruct (Ascii.eqb c delimiter); [discriminate|]. now rewrite IH.
Qed.

Lemma split_append (x rest : string) :
  comma_free x = true ->
  split (x +:+ String delimiter rest) = x :: split rest.
Proof.
  induction x as [|c x IH]; intros Hx.
  - reflexivity.
  - simpl in Hx. apply andb_true_iff in Hx as [Hc Hx].
    change (String c x +:+ String delimiter rest)
      with (String c (x +:+ String delimiter rest)).
    simpl split. destruct (Ascii.eqb c delimiter); [discriminate|].
    now rewrite IH.
Qed.

(** Splitting a joined list gives the list back when no element holds the
    delimiter; the empty list is the one exception. *)
Lemma split_join (parts : list string) :
  Forall (fun o => comma_free o = true) parts -> parts <> [] ->
  split (join parts) = parts.
Proof.
  induction 1 as [|x rest Hx Hrest IH]; intros Hne; [congruence|].
  destruct rest as [|y rest].
  - simpl. now apply split_comma_free.
  - rewrite join_cons by discriminate.
    rewrite split_append by assumption. f_equal. now apply IH.
Qed.

Lemma join_empty (parts : list string) :
  join parts = "" -> parts = [] \/ parts = [""].
Proof.
  destruct parts as [|x [|y rest]]; simpl; intros H.
  - now left.
  - right. now subst.
  - destruct x; discriminate.
Qed.

(** Reading back what was written. *)
Lemma parse_join (obs : list string) :
  storable obs -> parse_observations (join obs) = obs.
Proof.
  intros [Hfree Hne].
  destruct obs as [|x rest]; [reflexivity|].
  unfold parse_observations.
  destruct (join (x :: rest)) eqn:E.
  - apply join_empty in E as [E|E]; congruence.
  - rewrite <- E. now apply split_join.
Qed.

Lemma comma_free_split (s : string) :
  Forall (fun o => comma_free o = true) (split s).
Proof.
  induction s as [|c s IH]; simpl.
  - now repeat constructor.
  - destruct (Ascii.eqb c delimiter) eqn:E.
    + now constructor.
    + destruct (split s) as [|h t]; [repeat constructor; simpl; now rewrite E|].
      inversion IH; subst. constructor; [|assumption]. simpl. now rewrite E.
Qed.

Lemma comma_free_parse (field : string) :
  Forall (fun o => comma_free o = true) (parse_observations field).
Proof. destruct field; [constructor | apply comma_free_split]. Qed.

Lemma parse_not_single_empty (field : string) :
  parse_observations field <> [""].
Proof.
  intros H. pose proof (join_parse_observations field) as J.
  rewrite H in J. simpl in J. subst field. discriminate.
Qed.

(** What a row holds stays storable when storable contents are appended. *)
Lemma storable_parse_app (field : string) (new_contents : list string) :
  storable new_contents -> storable (parse_observations field ++ new_contents).
Proof.
  intros [Hfree Hne]. split.
  - apply Forall_app. split; [apply comma_free_parse | assumption].
  - intros H. destruct (parse_observations field) as [|x rest] eqn:E.
    + simpl in H. congruence.
    + destruct rest; destruct new_contents; simpl in H; try discriminate.
      apply (parse_not_single_empty field). rewrite E. congruence.
Qed.

End CodecFacts.

(** ** LIKE with the pattern of [search_nodes] *)

Section LikeFacts.

Import Like.

Lemma append_nil (t : string) : "" +:+ t = t.
Proof. reflexivity. Qed.

Lemma append_cons (c : ascii) (s t : string) :
  String c s +:+ t = String c (s +:+ t).
Proof. reflexivity. Qed.

Lemma append_is_empty (a b : string) : a +:+ b = "" -> a = "" /\ b = "".
Proof. destruct a; [now rewrite append_nil | discriminate]. Qed.

(** A trailing ['%'] accepts whatever is left. *)
Lemma like_match_all_last (text : string) : like (String match_all "") text = true.
Proof.
  induction text as [|c text IH]; [reflexivity|].
  change (like (String match_all "") (String c text))
    with (like "" (String c text) || like (String match_all "") text).
  rewrite IH. apply orb_true_r.
Qed.

(** A leading ['%'] lets the rest of the pattern start anywhere. *)
Lemma like_match_all (pattern text : string) :
  like (String match_all pattern) text = true <->
  exists before after, text = before +:+ after /\ like pattern after = true.
Proof.
  induction text as [|c text IH].
  - simpl. rewrite orb_false_r. split.
    + intros H. now exists "", "".
    + intros (b & a & E & H). symmetry in E.
      apply append_is_empty in E as [-> ->]. assumption.
  - change (like (String match_all pattern) (String c text))
      with (like pattern (String c text) || like (String match_all pattern) text).
    rewrite orb_true_iff, IH. split.
    + intros [H | (b & a & E & H)].
      * now exists "", (String c text).
      * exists (String c b), a. rewrite append_cons. now rewrite E.
    + intros (b & a & E & H). destruct b as [|x b].
      * left. rewrite append_nil in E. now subst a.
      * right. rewrite append_cons in E. injection E as -> ->. now exists b, a.
Qed.

(** A wildcard-free stretch of the pattern consumes a stretch of the text
    that equals it up to the case of ASCII letters. *)
Lemma like_literal (literal pattern text : string) :
  wildcard_free literal = true ->
  like (literal +:+ pattern) text = true <->
  exists middle after,
    text = middle +:+ after /\ fold_case middle = fold_case literal
    /\ like pattern after = true.
Proof.
  intros Hfree. revert text.
  induction literal as [|p literal IH]; intros text.
  - rewrite append_nil. split.
    + intros H. now exists "", text.
    + intros (m & a & E & Hm & H). destruct m; [|discriminate].
      rewrite append_nil in E. now subst.
  - simpl in Hfree.
    apply andb_true_iff in Hfree as [[Hall Hone]%andb_true_iff Hfree].
    apply negb_true_iff in Hall, Hone.
    specialize (IH Hfree).
    rewrite append_cons. simpl like. rewrite Hall, Hone.
    destruct text as [|c text].
    + split; [discriminate|].
      intros (m & a & E & Hm & _). destruct m; discriminate.
    + rewrite andb_true_iff, IH, Ascii.eqb_eq. split.
      * intros (Hc & m & a & E & Hm & H).
        exists (String c m), a. rewrite append_cons. simpl.
        rewrite E, Hm, Hc. auto.
      * intros (m & a & E & Hm & H). destruct m as [|x m]; [discriminate|].
        rewrite append_cons in E. simpl in Hm.
        injection E as -> ->. injection Hm as Hc Hm.
        split; [congruence|]. now exists m, a.
Qed.

(** For a query without wildcards, the pattern [%query%] finds the query up
    to the case of ASCII letters. *)
Lemma like_search_pattern (query_string text : string) :
  wildcard_free query_string = true ->
  like (search_pattern query_string) text = true <->
  contains_nocase query_string text.
Proof.
  intros Hfree. unfold search_pattern, contains_nocase.
  rewrite like_match_all. split.
  - intros (b & a & E & H).
    apply (like_literal _ _ _ Hfree) in H as (m & a' & E' & Hm & _).
    exists b, m, a'. now subst.
  - intros (b & m & a & E & Hm). exists b, (m +:+ a). split; [assumption|].
    apply (like_literal _ _ _ Hfree). exists m, a.
    split; [reflexivity|]. split; [assumption|]. apply like_match_all_last.
Qed.

(** A text without NUL is its own C string. *)
Lemma c_string_nul_free (s : string) : nul_free s = true -> c_string s = s.
Proof.
  induction s as [|c s IH]; [reflexivity|]. simpl.
  intros [Hc Hs]%andb_true_iff. apply negb_true_iff in Hc.
  rewrite Hc. now rewrite IH.
Qed.

Lemma nul_free_append (a b : string) :
  nul_free (a +:+ b) = nul_free a && nul_free b.
Proof.
  induction a as [|x a IH]; [reflexivity|].
  rewrite append_cons. simpl. now rewrite IH, andb_assoc.
Qed.

Lemma nul_free_search_pattern (query_string : string) :
  nul_free query_string = true -> nul_free (search_pattern query_string) = true.
Proof.
  intros H. unfold search_pattern. simpl. now rewrite nul_free_append, H.
Qed.

(** The LIKE of [search_nodes], for a query without wildcards and without
    NUL: it finds the query, up to the case of ASCII letters, in the text
    as far as its first NUL. *)
Lemma like_operator_search_pattern (query_string text : string) :
  wildcard_free query_string = true ->
  nul_free query_string = true ->
  like_operator (search_pattern query_string) text = true <->
  contains_nocase query_string (c_string text).
Proof.
  intros Hfree Hnul. unfold like_operator.
  rewrite (c_string_nul_free _ (nul_free_search_pattern _ Hnul)).
  now apply like_search_pattern.
Qed.

Lemma starts_with_spec (needle text : string) :
  starts_with needle text = true <-> exists after, text = needle +:+ after.
Proof.
  revert text. induction needle as [|a needle IH]; intros text; simpl.
  - split; [intros _; now exists text | reflexivity].
  - destruct text as [|b text].
    + split; [discriminate | intros (x & E); discriminate].
    + rewrite andb_true_iff, IH, Ascii.eqb_eq. split.
      * intros (-> & x & ->). now exists x.
      * intros (x & E). rewrite append_cons in E. injection E as -> ->.
        split; [reflexivity | now exists x].
Qed.

Lemma containsb_spec (needle text : string) :
  containsb needle text = true <-> contains needle text.
Proof.
  unfold contains. induction text as [|c text IH].
  - simpl. rewrite orb_false_r, starts_with_spec. split.
    + intros (a & E). now exists "", a.
    + intros (b & a & E). destruct b; [|discriminate]. now exists a.
  - simpl. rewrite orb_true_iff, IH, starts_with_spec. split.
    + intros [(a & E) | (b & a & E)].
      * now exists "", a.
      * exists (String c b), a. rewrite append_cons. now rewrite E.
    + intros (b & a & E). destruct b as [|x b].
      * left. now exists a.
      * right. rewrite append_cons in E. injection E as -> ->. now exists b, a.
Qed.

End LikeFacts.

(** ** Rows, records and the statements that only read *)

Section Reading.

Lemma elem_of_map {A B} (f : A -> B) (l : list A) (y : B) :
  y ∈ map f l <-> exists x, y = f x /\ x ∈ l.
Proof.
  induction l as [|a l IH]; simpl.
  - split; [intros H; inversion H | intros (x & _ & H); inversion H].
  - rewrite elem_of_cons, IH. split.
    + intros [-> | (x & -> & Hx)]; [exists a | exists x]; rewrite elem_of_cons; auto.
    + intros (x & -> & [-> | Hx]%elem_of_cons); [now left | right; now exists x].
Qed.

Lemma sql_in_true (x : string) (params : list string) :
  Sql.sql_in x params = true <-> x ∈ params.
Proof. unfold Sql.sql_in. apply bool_decide_eq_true. Qed.

Lemma sql_in_false (x : string) (params : list string) :
  Sql.sql_in x params = false <-> x ∉ params.
Proof. unfold Sql.sql_in. apply bool_decide_eq_false. Qed.

Lemma entity_of_row_inj (r1 r2 : Sql.entity_row) :
  entity_of_row r1 = entity_of_row r2 -> r1 = r2.
Proof.
  destruct r1 as [n1 t1 o1], r2 as [n2 t2 o2]. unfold entity_of_row; simpl.
  intros H. injection H as -> -> Ho. f_equal.
  rewrite <- (join_parse_observations o1), <- (join_parse_observations o2).
  now rewrite Ho.
Qed.

Lemma row_of_relation_of_row (r : Sql.relation_row) :
  row_of_relation (relation_of_row r) = r.
Proof. now destruct r. Qed.

Lemma relation_of_row_of_relation (r : Relation) :
  relation_of_row (row_of_relation r) = r.
Proof. now destruct r. Qed.

Lemma elem_of_relations (r : Relation) (rows : list Sql.relation_row) :
  r ∈ map relation_of_row rows <-> row_of_relation r ∈ rows.
Proof.
  rewrite elem_of_map. split.
  - intros (x & -> & Hx). now rewrite row_of_relation_of_row.
  - intros H. exists (row_of_relation r).
    now rewrite relation_of_row_of_relation.
Qed.

Lemma elem_of_entities (row : Sql.entity_row) (rows : list Sql.entity_row) :
  entity_of_row row ∈ map entity_of_row rows <-> row ∈ rows.
Proof.
  rewrite elem_of_map. split.
  - intros (x & E & Hx). apply entity_of_row_inj in E. now subst.
  - intros H. now exists row.
Qed.

Lemma names_of_entities (rows : list Sql.entity_row) :
  map name (map entity_of_row rows) = Sql.names_of rows.
Proof. unfold Sql.names_of. rewrite map_map. reflexivity. Qed.

Lemma read_graph_result (c : connection) :
  read_graph c
  = (inr (mkGraph (map entity_of_row (Sql.entities_table (view c)))
                  (map relation_of_row (Sql.relations_table (view c)))), c).
Proof. reflexivity. Qed.

Lemma open_nodes_result (plan : Sql.arrangement) (names : list string)
    (c : connection) :
  open_nodes plan names c
  = (inr (mkGraph (map entity_of_row (Sql.select_entities_in plan names (view c)))
                  (map relation_of_row (Sql.select_relations_in plan names (view c)))), c).
Proof. reflexivity. Qed.

(** Whatever the planner, the statements with [IN] hand out the rows
    selected, each as often as it is stored. *)
Lemma select_entities_in_perm (plan : Sql.arrangement) (names : list string)
    (d : Sql.database) :
  Sql.select_entities_in plan names d
  ≡ₚ filter (fun r => Sql.row_name r ∈ names) (Sql.entities_table d).
Proof.
  unfold Sql.select_entities_in. rewrite Sql.arrange_entities_in_perm.
  erewrite list_filter_iff; [reflexivity|]. intros r. apply sql_in_true.
Qed.

Lemma select_relations_in_perm (plan : Sql.arrangement) (names : list string)
    (d : Sql.database) :
  Sql.select_relations_in plan names d
  ≡ₚ filter (fun r => Sql.from_entity r ∈ names /\ Sql.to_entity r ∈ names)
            (Sql.relations_table d).
Proof.
  unfold Sql.select_relations_in. rewrite Sql.arrange_relations_in_perm.
  erewrite list_filter_iff; [reflexivity|].
  intros r. now rewrite andb_true_iff, !sql_in_true.
Qed.

Lemma collect_matches_spec (rows : list Sql.entity_row)
    (found : list Entity) (entity_names : gset string) :
  collect_matches rows found entity_names
  = (found ++ map entity_of_row rows,
     list_to_set (Sql.names_of rows) ∪ entity_names).
Proof.
  revert found entity_names.
  induction rows as [|row rows IH]; intros found entity_names; simpl.
  - rewrite app_nil_r. f_equal. set_solver.
  - rewrite IH, <- app_assoc. simpl. f_equal. set_solver.
Qed.

Lemma select_names_in_spec (params : list string) (d : Sql.database) (x : string) :
  x ∈ Sql.select_names_in params d <->
  x ∈ Sql.names_of (Sql.entities_table d) /\ x ∈ params.
Proof.
  unfold Sql.select_names_in, Sql.names_of.
  rewrite !elem_of_map. split.
  - intros (r & -> & [Hin Hr]%list_elem_of_filter).
    split; [now exists r | now apply sql_in_true].
  - intros ((r & -> & Hr) & Hin). exists r. split; [reflexivity|].
    apply list_elem_of_filter. split; [now apply sql_in_true | assumption].
Qed.

(** What [search_nodes] returns for a query that passes the guard: the rows
    the LIKE selects, and the relations with both ends among their names. *)
Lemma search_nodes_result (plan : Sql.arrangement) (query_string : string)
    (c : connection) :
  query_string <> "" ->
  exists g,
    search_nodes plan query_string c = (inr g, c)
    /\ entities g
       = map entity_of_row
           (Sql.select_entities_like (Like.search_pattern query_string) (view c))
    /\ forall r, r ∈ relations g <->
         row_of_relation r ∈ Sql.relations_table (view c)
         /\ from_ r ∈ map name (entities g) /\ to r ∈ map name (entities g).
Proof.
  intros Hq. unfold search_nodes.
  rewrite bool_decide_eq_false_2 by assumption.
  unfold bind at 1. unfold query at 1.
  rewrite collect_matches_spec. simpl app.
  eexists. split; [reflexivity|]. split; [reflexivity|].
  intros r. cbn [relations entities]. rewrite elem_of_relations.
  set (rows := Sql.select_entities_like _ _).
  unfold Sql.select_relations_among.
  rewrite Sql.arrange_relations_among_perm, list_elem_of_filter.
  rewrite andb_true_iff, !sql_in_true, !select_names_in_spec.
  rewrite names_of_entities.
  assert (Hsub : forall x, x ∈ Sql.names_of rows ->
                           x ∈ Sql.names_of (Sql.entities_table (view c))).
  { intros x (row & -> & [_ Hrow]%list_elem_of_filter)%elem_of_map.
    apply elem_of_map. now exists row. }
  assert (Hset : forall x, x ∈ elements (list_to_set (Sql.names_of rows) ∪ (∅ : gset string))
                           <-> x ∈ Sql.names_of rows).
  { intros x. rewrite elem_of_elements. set_solver. }
  rewrite !Hset. destruct r as [f t ty]; simpl. naive_solver.
Qed.

End Reading.

(** ** [open_nodes] and [search_nodes] *)

Section Queries.

(** C1. A query that passes the guard and that the LIKE of [search_nodes]
    finds in no row returns no entity and no relation: the empty list of
    names bound to [IN ()] selects nothing, whatever relations are stored.
    The connection is left as it was. *)
Theorem search_nodes_no_match
    (plan : Sql.arrangement) (query_string : string) (c : connection) :
  query_string <> "" ->
  (forall row, row ∈ Sql.entities_table (view c) ->
     Sql.row_like (Like.search_pattern query_string) row = false) ->
  search_nodes plan query_string c = (inr (mkGraph [] []), c).
Proof.
  intros Hq Hnone.
  destruct (search_nodes_result plan query_string c Hq) as (g & -> & Hents & Hrels).
  assert (Hsel : Sql.select_entities_like (Like.search_pattern query_string) (view c) = []).
  { unfold Sql.select_entities_like.
    induction (Sql.entities_table (view c)) as [|row rows IH]; [reflexivity|].
    rewrite filter_cons_False.
    - apply IH. intros r Hr. apply Hnone. now right.
    - rewrite Hnone; [discriminate | now left]. }
  rewrite Hsel in Hents. simpl in Hents.
  destruct g as [es rs]. simpl in *. subst es.
  destruct rs as [|r rs]; [reflexivity|].
  assert (Hr : r ∈ r :: rs) by now left.
  apply Hrels in Hr as (_ & Hfrom & _). inversion Hfrom.
Qed.

Lemma search_nodes_no_match_witness :
  search_nodes Sql.index_order "zebra" sample_connection
  = (inr (mkGraph [] []), sample_connection).
Proof.
  apply (search_nodes_no_match Sql.index_order "zebra" sample_connection).
  - discriminate.
  - intros row Hrow. simpl in Hrow.
    repeat (apply elem_of_cons in Hrow as [-> | Hrow]; [reflexivity|]).
    inversion Hrow.
Defined.

(** C3. Whatever order the planner picks, [open_nodes(names)] returns the
    entities of exactly the stored rows whose name is in [names], and
    exactly the stored relations whose two ends are both in [names], each
    as often as it is stored; a stored relation with an end outside
    [names] is not returned.  The connection is left as it was. *)
Theorem open_nodes_exact
    (plan : Sql.arrangement) (names : list string) (c : connection) :
  exists g,
    open_nodes plan names c = (inr g, c)
    /\ entities g
       ≡ₚ map entity_of_row
            (filter (fun row => Sql.row_name row ∈ names)
                    (Sql.entities_table (view c)))
    /\ relations g
       ≡ₚ map relation_of_row
            (filter (fun row => Sql.from_entity row ∈ names
                                /\ Sql.to_entity row ∈ names)
                    (Sql.relations_table (view c)))
    /\ (forall e, e ∈ entities g <->
          exists row, row ∈ Sql.entities_table (view c)
                      /\ e = entity_of_row row /\ name e ∈ names)
    /\ (forall r, r ∈ relations g <->
          row_of_relation r ∈ Sql.relations_table (view c)
          /\ from_ r ∈ names /\ to r ∈ names)
    /\ (forall r, row_of_relation r ∈ Sql.relations_table (view c) ->
          from_ r ∉ names \/ to r ∉ names -> r ∉ relations g).
Proof.
  rewrite open_nodes_result. eexists. split; [reflexivity|].
  cbn [entities relations].
  pose proof (Permutation_map entity_of_row
                (select_entities_in_perm plan names (view c))) as Hents.
  pose proof (Permutation_map relation_of_row
                (select_relations_in_perm plan names (view c))) as Hrels.
  assert (Hrel : forall r,
    r ∈ map relation_of_row (Sql.select_relations_in plan names (view c)) <->
    row_of_relation r ∈ Sql.relations_table (view c)
    /\ from_ r ∈ names /\ to r ∈ names).
  { intros r. rewrite Hrels, elem_of_relations, list_elem_of_filter.
    destruct r; simpl. tauto. }
  split; [exact Hents|]. split; [exact Hrels|].
  split; [|split; [exact Hrel|]].
  - intros e. rewrite Hents, elem_of_map. split.
    + intros (row & -> & [Hin Hrow]%list_elem_of_filter). now exists row.
    + intros (row & Hrow & -> & Hin). exists row. split; [reflexivity|].
      now apply list_elem_of_filter.
  - intros r _ Hmiss Hr. apply Hrel in Hr. tauto.
Qed.

Lemma open_nodes_exact_witness :
  exists g,
    open_nodes Sql.index_order ["Zed"; "Alice"] two_rooms_connection
    = (inr g, two_rooms_connection)
    /\ entities g = [mkEntity "Alice" "person" []; mkEntity "Zed" "person" ["z"]]
    /\ relations g = [mkRelation "Zed" "Alice" "knows"].
Proof.
  destruct (open_nodes_exact Sql.index_order ["Zed"; "Alice"] two_rooms_connection)
    as (g & Hrun & _).
  exists g. split; [exact Hrun|].
  vm_compute in Hrun. injection Hrun as <-. split; reflexivity.
Defined.

(** C9, as the code has it. For a query that passes the guard and holds
    neither ['%'] nor ['_'] nor NUL, [search_nodes] returns the entity of a
    stored row exactly when the query occurs, up to the case of ASCII
    letters, in the row's name, type or stored observations field, each
    read as far as its first NUL; for a row whose three texts hold no NUL
    that is in the texts themselves.  It returns nothing but entities of
    stored rows. *)
Theorem search_nodes_matches_nocase
    (plan : Sql.arrangement) (query_string : string) (c : connection) :
  query_string <> "" ->
  Like.wildcard_free query_string = true ->
  Like.nul_free query_string = true ->
  exists g,
    search_nodes plan query_string c = (inr g, c)
    /\ (forall e, e ∈ entities g ->
          exists row, row ∈ Sql.entities_table (view c) /\ e = entity_of_row row)
    /\ (forall row, row ∈ Sql.entities_table (view c) ->
          (entity_of_row row ∈ entities g <->
             Like.contains_nocase query_string (Like.c_string (Sql.row_name row))
             \/ Like.contains_nocase query_string (Like.c_string (Sql.entity_type row))
             \/ Like.contains_nocase query_string
                  (Like.c_string (Sql.row_observations row))))
    /\ (forall row, row ∈ Sql.entities_table (view c) ->
          Like.nul_free (Sql.row_name row) = true ->
          Like.nul_free (Sql.entity_type row) = true ->
          Like.nul_free (Sql.row_observations row) = true ->
          (entity_of_row row ∈ entities g <->
             Like.contains_nocase query_string (Sql.row_name row)
             \/ Like.contains_nocase query_string (Sql.entity_type row)
             \/ Like.contains_nocase query_string (Sql.row_observations row))).
Proof.
  intros Hq Hfree Hnul.
  destruct (search_nodes_result plan query_string c Hq) as (g & Hrun & Hents & _).
  exists g. split; [assumption|]. rewrite Hents.
  unfold Sql.select_entities_like.
  assert (Hrow : forall row, row ∈ Sql.entities_table (view c) ->
    (entity_of_row row
       ∈ map entity_of_row
           (filter (fun r => Sql.row_like (Like.search_pattern query_string) r = true)
                   (Sql.entities_table (view c))) <->
     Like.contains_nocase query_string (Like.c_string (Sql.row_name row))
     \/ Like.contains_nocase query_string (Like.c_string (Sql.entity_type row))
     \/ Like.contains_nocase query_string
          (Like.c_string (Sql.row_observations row)))).
  { intros row Hrow. rewrite elem_of_entities, list_elem_of_filter.
    unfold Sql.row_like. rewrite !orb_true_iff.
    rewrite !(like_operator_search_pattern _ _ Hfree Hnul). tauto. }
  split; [|split; [exact Hrow|]].
  - intros e (row & -> & [_ Hrow']%list_elem_of_filter)%elem_of_map. now exists row.
  - intros row Hin Hn Ht Ho. rewrite (Hrow row Hin).
    now rewrite !c_string_nul_free by assumption.
Qed.

Lemma search_nodes_matches_nocase_witness :
  exists g,
    search_nodes Sql.index_order "PERSON" sample_connection
    = (inr g, sample_connection)
    /\ entities g = [mkEntity "Alice" "person" ["a"; "b"]; mkEntity "Bob" "person" []].
Proof.
  destruct (search_nodes_matches_nocase Sql.index_order "PERSON" sample_connection)
    as (g & Hrun & _ & _); [discriminate | reflexivity | reflexivity|].
  exists g. split; [exact Hrun|].
  vm_compute in Hrun. injection Hrun as <-. reflexivity.
Defined.

(** C9, as the specification words it, fails three times over.  The query
    [alice] finds the entity named [Alice], the query [A_i] finds it too,
    and so does the query of one NUL character, although none of its three
    texts contains any of these queries letter for letter. *)
Lemma search_nodes_literal_counterexample :
  let row := Sql.mkEntityRow "Alice" "person" "a,b" in
  let literally (q : string) :=
    Like.contains q (Sql.row_name row)
    \/ Like.contains q (Sql.entity_type row)
    \/ Like.contains q (Sql.row_observations row) in
  let found (q : string) :=
    exists g, search_nodes Sql.index_order q sample_connection
              = (inr g, sample_connection)
              /\ entity_of_row row ∈ entities g in
  row ∈ Sql.entities_table (view sample_connection)
  /\ found "alice" /\ ~ literally "alice"
  /\ found "A_i" /\ ~ literally "A_i"
  /\ found (String Like.nul "") /\ ~ literally (String Like.nul "").
Proof.
  cbv zeta. split; [now left|].
  split; [eexists; split; [vm_compute; reflexivity | now left]|].
  split; [rewrite <- !containsb_spec; vm_compute; intuition discriminate|].
  split; [eexists; split; [vm_compute; reflexivity | now left]|].
  split; [rewrite <- !containsb_spec; vm_compute; intuition discriminate|].
  split; [eexists; split; [vm_compute; reflexivity | now left]|].
  rewrite <- !containsb_spec. vm_compute. intuition discriminate.
Qed.

End Queries.

(** ** [create_entities] *)

Section CreateEntities.

Lemma insert_entity_fresh (r : Sql.entity_row) (d : Sql.database) :
  Sql.row_name r ∉ Sql.names_of (Sql.entities_table d) ->
  Sql.insert_entity r d
  = Some (Sql.mkDatabase (Sql.entities_table d ++ [r]) (Sql.relations_table d)).
Proof.
  intros H. unfold Sql.insert_entity, Sql.entity_exists.
  now rewrite (proj2 (sql_in_false _ _) H).
Qed.

Lemma insert_entity_taken (r : Sql.entity_row) (d : Sql.database) :
  Sql.row_name r ∈ Sql.names_of (Sql.entities_table d) ->
  Sql.insert_entity r d = None.
Proof.
  intros H. unfold Sql.insert_entity, Sql.entity_exists.
  now rewrite (proj2 (sql_in_true _ _) H).
Qed.

Lemma names_of_app (rows rows' : list Sql.entity_row) :
  Sql.names_of (rows ++ rows') = Sql.names_of rows ++ Sql.names_of rows'.
Proof. apply map_app. Qed.

(** A batch of new, pairwise different names goes in whole, in order. *)
Lemma create_entities_loop_ok (batch : list Entity) :
  forall (created : list Entity) (c : connection),
    NoDup (map name batch) ->
    (forall e, e ∈ batch -> name e ∉ Sql.names_of (Sql.entities_table (view c))) ->
    create_entities_loop batch created c
    = (inr (created ++ batch),
       mkConnection (committed c)
         (Sql.mkDatabase
            (Sql.entities_table (view c) ++ map row_of_entity batch)
            (Sql.relations_table (view c)))).
Proof.
  induction batch as [|e rest IH]; intros created c Hnd Hfresh.
  - simpl. unfold ret. rewrite !app_nil_r. now destruct c as [k [es rs]].
  - simpl in Hnd. apply NoDup_cons in Hnd as [He Hnd].
    simpl. unfold bind at 1, execute_checked.
    rewrite insert_entity_fresh by (apply Hfresh; now left).
    rewrite IH; [|assumption|].
    + simpl. now rewrite <- !app_assoc.
    + intros x Hx. simpl. rewrite names_of_app. simpl.
      apply not_elem_of_app. split; [apply Hfresh; now right|].
      intros E%list_elem_of_singleton. apply He, elem_of_map. now exists x.
Qed.

(** The first name that is taken, in the store or by an earlier item of the
    batch, stops the loop: roll back, raise. *)
Lemma create_entities_loop_collision (pre : list Entity) :
  forall (e : Entity) (post created : list Entity) (c : connection),
    NoDup (map name pre) ->
    (forall x, x ∈ pre -> name x ∉ Sql.names_of (Sql.entities_table (view c))) ->
    name e ∈ Sql.names_of (Sql.entities_table (view c)) \/ name e ∈ map name pre ->
    create_entities_loop (pre ++ e :: post) created c
    = (inl (EntityAlreadyExistsError (name e)),
       mkConnection (committed c) (committed c)).
Proof.
  induction pre as [|x pre IH]; intros e post created c Hnd Hfresh Hhit.
  - destruct Hhit as [Hhit | Hhit]; [|inversion Hhit].
    simpl. unfold bind at 1, execute_checked.
    now rewrite insert_entity_taken.
  - simpl in Hnd. apply NoDup_cons in Hnd as [Hx Hnd].
    simpl. unfold bind at 1, execute_checked.
    rewrite insert_entity_fresh by (apply Hfresh; now left).
    rewrite IH; [reflexivity | assumption | |].
    + intros y Hy. simpl. rewrite names_of_app. simpl.
      apply not_elem_of_app. split; [apply Hfresh; now right|].
      intros E%list_elem_of_singleton. apply Hx, elem_of_map. now exists y.
    + simpl. rewrite names_of_app. simpl. rewrite elem_of_app, list_elem_of_singleton.
      destruct Hhit as [Hhit | [Hhit | Hhit]%elem_of_cons]; auto.
Qed.

(** Either a batch is free of collisions or it splits at its first one. *)
Lemma collision_dichotomy (names : list string) (batch : list Entity) :
  (NoDup (map name batch) /\ forall x, x ∈ batch -> name x ∉ names)
  \/ exists pre e post,
       batch = pre ++ e :: post
       /\ NoDup (map name pre)
       /\ (forall x, x ∈ pre -> name x ∉ names)
       /\ (name e ∈ names \/ name e ∈ map name pre).
Proof.
  induction batch as [|e batch IH] using rev_ind.
  - left. split; [constructor | intros x Hx; inversion Hx].
  - destruct IH as [[Hnd Hfresh] | (pre & x & post & -> & Hnd & Hfresh & Hhit)].
    + destruct (decide (name e ∈ names)) as [Hin | Hout].
      { right. exists batch, e, []. auto. }
      destruct (decide (name e ∈ map name batch)) as [Hdup | Hnew].
      { right. exists batch, e, []. auto. }
      left. split.
      * rewrite map_app. simpl. apply NoDup_app. split; [assumption|].
        split; [|apply NoDup_singleton].
        intros n Hn ->%list_elem_of_singleton. contradiction.
      * intros y [Hy | ->%list_elem_of_singleton]%elem_of_app; auto.
    + right. exists pre, x, (post ++ [e]). rewrite <- app_assoc. auto.
Qed.

(** Whatever the batch, [create_entities] either stores it whole and
    commits, or raises for its first collision with everything rolled
    back. *)
Lemma create_entities_cases (batch : list Entity) (c : connection) :
  (NoDup (map name batch)
   /\ (forall x, x ∈ batch -> name x ∉ Sql.names_of (Sql.entities_table (view c)))
   /\ let d := Sql.mkDatabase
                 (Sql.entities_table (view c) ++ map row_of_entity batch)
                 (Sql.relations_table (view c)) in
      create_entities batch c = (inr batch, mkConnection d d))
  \/ exists pre e post,
       batch = pre ++ e :: post
       /\ NoDup (map name pre)
       /\ (forall x, x ∈ pre -> name x ∉ Sql.names_of (Sql.entities_table (view c)))
       /\ (name e ∈ Sql.names_of (Sql.entities_table (view c))
           \/ name e ∈ map name pre)
       /\ create_entities batch c
          = (inl (EntityAlreadyExistsError (name e)),
             mkConnection (committed c) (committed c)).
Proof.
  destruct (collision_dichotomy (Sql.names_of (Sql.entities_table (view c))) batch)
    as [[Hnd Hfresh] | (pre & e & post & -> & Hnd & Hfresh & Hhit)].
  - left. split; [assumption|]. split; [assumption|].
    unfold create_entities, bind.
    now rewrite create_entities_loop_ok.
  - right. exists pre, e, post. repeat (split; [assumption || reflexivity|]).
    unfold create_entities, bind.
    now rewrite create_entities_loop_collision.
Qed.

Lemma entity_round_trip (e : Entity) :
  Codec.storable (observations e) -> entity_of_row (row_of_entity e) = e.
Proof.
  intros H. destruct e as [n t o]. unfold entity_of_row, row_of_entity; simpl in *.
  now rewrite parse_join.
Qed.

Lemma NoDup_map_inj {A B} (f : A -> B) (l : list A) (x y : A) :
  NoDup (map f l) -> x ∈ l -> y ∈ l -> f x = f y -> x = y.
Proof.
  induction l as [|a l IH]; intros Hnd Hx Hy E; [inversion Hx|].
  simpl in Hnd. apply NoDup_cons in Hnd as [Ha Hnd].
  apply elem_of_cons in Hx as [-> | Hx]; apply elem_of_cons in Hy as [-> | Hy].
  - reflexivity.
  - exfalso. apply Ha, elem_of_map. now exists y.
  - exfalso. apply Ha, elem_of_map. exists x. auto.
  - now apply IH.
Qed.

(** With unique names, the rows of one name are one row or none. *)
Lemma filter_by_name (rows : list Sql.entity_row) (n : string) :
  NoDup (Sql.names_of rows) ->
  (n ∈ Sql.names_of rows ->
     exists row, row ∈ rows /\ Sql.row_name row = n
       /\ filter (fun x => name x = n) (map entity_of_row rows) = [entity_of_row row])
  /\ (n ∉ Sql.names_of rows ->
        filter (fun x => name x = n) (map entity_of_row rows) = []).
Proof.
  induction rows as [|r rows IH]; intros Hnd.
  - split; [intros H; inversion H | reflexivity].
  - simpl in Hnd. apply NoDup_cons in Hnd as [Hr Hnd].
    destruct (IH Hnd) as [IHin IHout]. simpl. split.
    + intros [E | Hin]%elem_of_cons.
      * exists r. split; [now left|]. split; [now symmetry|].
        rewrite filter_cons_True by (simpl; congruence).
        rewrite IHout; [reflexivity | congruence].
      * destruct (IHin Hin) as (row & Hrow & Hname & Hf).
        exists row. split; [now right|]. split; [assumption|].
        rewrite filter_cons_False; [assumption|].
        simpl. intros E. apply Hr. now rewrite E.
    + intros Hout. apply not_elem_of_cons in Hout as [Hne Hout].
      rewrite filter_cons_False by (simpl; congruence). now apply IHout.
Qed.

End CreateEntities.

Section CreateEntitiesOutcome.

(** C4, as the code has it. When a name of the batch is taken, in the store
    or by an earlier item of the batch, [create_entities] raises
    already-exists for the first such name in batch order: no item before
    it collides, with the store or with another item before it.
    Everything is rolled back: nothing of the call is committed and the
    connection shows the committed store again.  A name that was in the
    committed store still has exactly one entity, built from its original
    row; a name that was not, as when it only repeats an earlier item of
    the batch, has none. *)
Theorem create_entities_collision (batch : list Entity) (c : connection) :
  NoDup (Sql.names_of (Sql.entities_table (committed c))) ->
  (exists e, e ∈ batch /\ name e ∈ Sql.names_of (Sql.entities_table (view c)))
  \/ ~ NoDup (map name batch) ->
  exists pre e post c' g,
    batch = pre ++ e :: post
    /\ NoDup (map name pre)
    /\ (forall x, x ∈ pre -> name x ∉ Sql.names_of (Sql.entities_table (view c)))
    /\ (name e ∈ Sql.names_of (Sql.entities_table (view c)) \/ name e ∈ map name pre)
    /\ create_entities batch c = (inl (EntityAlreadyExistsError (name e)), c')
    /\ committed c' = committed c
    /\ view c' = committed c
    /\ read_graph c' = (inr g, c')
    /\ (name e ∈ Sql.names_of (Sql.entities_table (committed c)) ->
          exists row, row ∈ Sql.entities_table (committed c)
            /\ filter (fun x => name x = name e) (entities g) = [entity_of_row row])
    /\ (name e ∉ Sql.names_of (Sql.entities_table (committed c)) ->
          filter (fun x => name x = name e) (entities g) = []).
Proof.
  intros Hkey Hhit.
  destruct (create_entities_cases batch c)
    as [(Hnd & Hfresh & _) | (pre & e & post & -> & Hpre & Hclear & Hfirst & Hrun)].
  - exfalso. destruct Hhit as [(e & He & Hin) | Hdup]; [|contradiction].
    now apply (Hfresh e).
  - exists pre, e, post. eexists. eexists.
    split; [reflexivity|]. split; [assumption|]. split; [assumption|].
    split; [assumption|]. split; [exact Hrun|].
    split; [reflexivity|]. split; [reflexivity|]. split; [apply read_graph_result|].
    cbn [entities view].
    destruct (filter_by_name (Sql.entities_table (committed c)) (name e) Hkey)
      as [Hin Hout].
    split; [|assumption].
    intros H. destruct (Hin H) as (row & Hrow & _ & Hf). now exists row.
Qed.

Lemma create_entities_collision_witness :
  exists c',
    create_entities
      [mkEntity "Carol" "person" []; mkEntity "Bob" "robot" ["x"];
       mkEntity "Alice" "robot" []]
      sample_connection
    = (inl (EntityAlreadyExistsError "Bob"), c')
    /\ view c' = sample_database.
Proof.
  destruct (create_entities_collision
              [mkEntity "Carol" "person" []; mkEntity "Bob" "robot" ["x"];
               mkEntity "Alice" "robot" []]
              sample_connection)
    as (pre & e & post & c' & g & _ & _ & _ & _ & Hrun & _ & Hview & _).
  - vm_compute. repeat constructor; rewrite ?elem_of_cons, ?elem_of_nil; intuition discriminate.
  - left. exists (mkEntity "Alice" "robot" []). split; [right; right; now left|].
    vm_compute. now left.
  - exists c'. split; [|exact Hview].
    rewrite Hrun. vm_compute in Hrun. now injection Hrun as -> _.
Defined.

(** C4, as the specification words it, fails for a name that only repeats
    an earlier item of the batch: the call raises already-exists for it
    and, after the rollback, the store holds no entity of that name rather
    than exactly one. *)
Lemma create_entities_duplicate_in_batch_counterexample :
  let batch := [mkEntity "A" "t" ["a"]; mkEntity "A" "u" []] in
  let outcome := create_entities batch fresh_connection in
  ~ NoDup (map name batch)
  /\ fst outcome = inl (EntityAlreadyExistsError "A")
  /\ ~ exists row,
         filter (fun r => Sql.row_name r = "A")
                (Sql.entities_table (view (snd outcome))) = [row].
Proof.
  split; [|split].
  - simpl. intros [H _]%NoDup_cons. apply H. now left.
  - reflexivity.
  - intros (row & H). vm_compute in H. discriminate.
Qed.

(** C7. An entity that [create_entities] has stored is listed by
    [read_graph] with the observations it was given, in their order, when
    these are storable (none holds the delimiter, and they are not the
    single empty string), as [["a"; "b"]] is; no other entity listed bears
    its name.  A row whose observations field is empty is read as the empty
    sequence, and no row is ever read as the single empty string. *)
Theorem observations_round_trip
    (batch created : list Entity) (c c' : connection) (e : Entity) :
  create_entities batch c = (inr created, c') ->
  e ∈ batch ->
  Codec.storable (observations e) ->
  exists g,
    read_graph c' = (inr g, c')
    /\ e ∈ entities g
    /\ (forall x, x ∈ entities g -> name x = name e -> x = e)
    /\ (forall row, row ∈ Sql.entities_table (view c') ->
          Sql.row_observations row = "" -> observations (entity_of_row row) = [])
    /\ (forall x, x ∈ entities g -> observations x <> [""]).
Proof.
  intros Hrun He Hst.
  destruct (create_entities_cases batch c)
    as [(Hnd & Hfresh & Hok) | (pre & x & post & _ & _ & _ & _ & Hfail)];
    [|rewrite Hfail in Hrun; discriminate].
  cbv zeta in Hok. rewrite Hok in Hrun. injection Hrun as <- <-.
  eexists. split; [apply read_graph_result|]. cbn [entities view Sql.entities_table].
  split; [|split; [|split]].
  - rewrite <- (entity_round_trip e Hst).
    apply elem_of_entities, elem_of_app. right. apply elem_of_map. now exists e.
  - intros x (row & -> & Hrow)%elem_of_map Hname.
    apply elem_of_app in Hrow as [Hold | (y & -> & Hy)%elem_of_map].
    + exfalso. apply (Hfresh e He). simpl in Hname. rewrite <- Hname.
      apply elem_of_map. now exists row.
    + assert (y = e) as -> by (apply (NoDup_map_inj name batch); assumption).
      now apply entity_round_trip.
  - intros row _ Hempty. unfold entity_of_row. simpl. now rewrite Hempty.
  - intros x (row & -> & _)%elem_of_map. apply parse_not_single_empty.
Qed.

Lemma observations_round_trip_witness :
  exists g c',
    read_graph c' = (inr g, c')
    /\ mkEntity "E" "note" ["a"; "b"] ∈ entities g.
Proof.
  destruct (observations_round_trip
              [mkEntity "E" "note" ["a"; "b"]] [mkEntity "E" "note" ["a"; "b"]]
              fresh_connection
              (snd (create_entities [mkEntity "E" "note" ["a"; "b"]] fresh_connection))
              (mkEntity "E" "note" ["a"; "b"]))
    as (g & Hread & Hin & _).
  - reflexivity.
  - now left.
  - split; [repeat constructor | discriminate].
  - exists g. eexists. split; [exact Hread | exact Hin].
Defined.

End CreateEntitiesOutcome.

(** ** [create_relations] *)

Section CreateRelations.

Lemma row_of_relation_inj (r1 r2 : Relation) :
  row_of_relation r1 = row_of_relation r2 -> r1 = r2.
Proof. destruct r1, r2. unfold row_of_relation; simpl. congruence. Qed.

Lemma entity_exists_true (n : string) (d : Sql.database) :
  Sql.entity_exists n d = true <-> n ∈ Sql.names_of (Sql.entities_table d).
Proof. apply sql_in_true. Qed.

Lemma entity_exists_false (n : string) (d : Sql.database) :
  Sql.entity_exists n d = false <-> n ∉ Sql.names_of (Sql.entities_table d).
Proof. apply sql_in_false. Qed.

(** One turn of the loop. *)
Lemma create_relations_loop_cons
    (r : Relation) (rest created : list Relation) (c : connection) :
  create_relations_loop (r :: rest) created c
  = if negb (Sql.entity_exists (from_ r) (view c))
    then (inl (EntityNotFoundError (from_ r)), c)
    else if negb (Sql.entity_exists (to r) (view c))
    then (inl (EntityNotFoundError (to r)), c)
    else let '(rowcount, d) :=
           Sql.insert_relation_or_ignore (row_of_relation r) (view c) in
         create_relations_loop rest
           (if (0 <? rowcount)%nat then created ++ [r] else created)
           (mkConnection (committed c) d).
Proof.
  simpl. unfold bind, query, execute, raise.
  destruct (Sql.entity_exists (from_ r) (view c)); [|reflexivity].
  cbn [negb]. cbv beta iota.
  destruct (Sql.entity_exists (to r) (view c)); [|reflexivity].
  cbn [negb]. cbv beta iota.
  now destruct (Sql.insert_relation_or_ignore _ _).
Qed.

(** With every end present, the loop inserts the triples that are new, each
    once, in order, and reports exactly those. *)
Lemma create_relations_loop_ok (batch : list Relation) :
  forall (created : list Relation) (c : connection),
    (forall r, r ∈ batch -> ends_exist (Sql.names_of (Sql.entities_table (view c))) r) ->
    exists fresh,
      create_relations_loop batch created c
      = (inr (created ++ fresh),
         mkConnection (committed c)
           (Sql.mkDatabase
              (Sql.entities_table (view c))
              (Sql.relations_table (view c) ++ map row_of_relation fresh)))
      /\ (forall r, r ∈ fresh <->
            r ∈ batch /\ row_of_relation r ∉ Sql.relations_table (view c))
      /\ NoDup fresh.
Proof.
  induction batch as [|r0 rest IH]; intros created c Hends.
  - exists []. simpl. unfold ret. rewrite !app_nil_r.
    split; [now destruct c as [k [es rs]]|].
    split; [|constructor].
    intros r. split; [intros H; inversion H | intros [H _]; inversion H].
  - destruct (Hends r0) as [Hfrom Hto]; [now left|].
    rewrite create_relations_loop_cons.
    rewrite (proj2 (entity_exists_true _ _) Hfrom).
    rewrite (proj2 (entity_exists_true _ _) Hto). cbn [negb].
    unfold Sql.insert_relation_or_ignore.
    destruct (decide (row_of_relation r0 ∈ Sql.relations_table (view c)))
      as [Hold | Hnew].
    + rewrite bool_decide_eq_true_2 by assumption. cbn [Nat.ltb Nat.leb].
      destruct (IH created (mkConnection (committed c) (view c)))
        as (fresh & Hrun & Hfresh & Hnd).
      { intros r Hr. apply Hends. now right. }
      exists fresh. split; [exact Hrun|]. split; [|assumption].
      intros r. rewrite Hfresh, elem_of_cons. simpl. split; [tauto|].
      intros [[-> | Hr] Hout]; [contradiction | tauto].
    + rewrite bool_decide_eq_false_2 by assumption. cbn [Nat.ltb Nat.leb].
      set (c1 := mkConnection _ _).
      destruct (IH (created ++ [r0]) c1) as (fresh & Hrun & Hfresh & Hnd).
      { intros r Hr. apply Hends. now right. }
      exists (r0 :: fresh). split; [|split].
      * rewrite Hrun. subst c1. simpl. now rewrite <- !app_assoc.
      * intros r. rewrite !elem_of_cons, Hfresh. subst c1. simpl.
        rewrite not_elem_of_app, list_elem_of_singleton. split.
        -- intros [-> | (Hr & Hout & _)]; tauto.
        -- intros [[-> | Hr] Hout]; [now left|].
           destruct (decide (row_of_relation r = row_of_relation r0)) as [E | Hne];
             [left; now apply row_of_relation_inj|].
           right. split; [assumption|]. split; assumption.
      * apply NoDup_cons. split; [|assumption].
        intros (_ & Hout)%Hfresh. apply Hout. subst c1. simpl.
        apply elem_of_app. right. now left.
Qed.

(** The first relation with a missing end stops the loop, with [from]
    looked up before [to]; nothing is committed on the way. *)
Lemma create_relations_loop_missing (pre : list Relation) :
  forall (r : Relation) (post created : list Relation) (c : connection) (n : string),
    (forall x, x ∈ pre -> ends_exist (Sql.names_of (Sql.entities_table (view c))) x) ->
    (n = from_ r /\ from_ r ∉ Sql.names_of (Sql.entities_table (view c)))
    \/ (n = to r /\ from_ r ∈ Sql.names_of (Sql.entities_table (view c))
        /\ to r ∉ Sql.names_of (Sql.entities_table (view c))) ->
    exists d,
      create_relations_loop (pre ++ r :: post) created c
      = (inl (EntityNotFoundError n), mkConnection (committed c) d).
Proof.
  induction pre as [|x pre IH]; intros r post created c n Hends Hmiss.
  - rewrite app_nil_l, create_relations_loop_cons.
    destruct Hmiss as [[-> Hfrom] | (-> & Hfrom & Hto)].
    + rewrite (proj2 (entity_exists_false _ _) Hfrom). simpl.
      exists (view c). now destruct c.
    + rewrite (proj2 (entity_exists_true _ _) Hfrom).
      rewrite (proj2 (entity_exists_false _ _) Hto). simpl.
      exists (view c). now destruct c.
  - destruct (Hends x) as [Hfrom Hto]; [now left|].
    rewrite <- app_comm_cons, create_relations_loop_cons.
    rewrite (proj2 (entity_exists_true _ _) Hfrom).
    rewrite (proj2 (entity_exists_true _ _) Hto). cbn [negb].
    destruct (Sql.insert_relation_or_ignore (row_of_relation x) (view c))
      as [rowcount d1] eqn:Hins.
    assert (Hsame : Sql.entities_table d1 = Sql.entities_table (view c)).
    { unfold Sql.insert_relation_or_ignore in Hins.
      destruct (bool_decide _); injection Hins as _ <-; reflexivity. }
    destruct (IH r post
                (if (0 <? rowcount)%nat then created ++ [x] else created)
                (mkConnection (committed c) d1) n) as (d & Hrun).
    + intros y Hy. simpl. rewrite Hsame. apply Hends. now right.
    + simpl. now rewrite Hsame.
    + exists d. exact Hrun.
Qed.

(** Either every relation of a batch has both ends, or the batch splits at
    the first one that does not. *)
Lemma missing_dichotomy (names : list string) (batch : list Relation) :
  (forall r, r ∈ batch -> ends_exist names r)
  \/ exists pre r post n,
       batch = pre ++ r :: post
       /\ (forall x, x ∈ pre -> ends_exist names x)
       /\ ((n = from_ r /\ from_ r ∉ names)
           \/ (n = to r /\ from_ r ∈ names /\ to r ∉ names)).
Proof.
  induction batch as [|r batch IH].
  - left. intros r H. inversion H.
  - destruct (decide (from_ r ∈ names)) as [Hfrom | Hfrom].
    + destruct (decide (to r ∈ names)) as [Hto | Hto].
      * destruct IH as [Hall | (pre & x & post & n & -> & Hpre & Hx)].
        -- left. intros y [-> | Hy]%elem_of_cons; [now split | auto].
        -- right. exists (r :: pre), x, post, n. split; [reflexivity|].
           split; [|assumption].
           intros y [-> | Hy]%elem_of_cons; [now split | auto].
      * right. exists [], r, batch, (to r). split; [reflexivity|].
        split; [intros y H; inversion H | auto].
    + right. exists [], r, batch, (from_ r). split; [reflexivity|].
      split; [intros y H; inversion H | auto].
Qed.

(** Whatever the batch, [create_relations] either adds the new triples and
    commits, or raises for the first missing end with everything rolled
    back. *)
Lemma create_relations_cases (batch : list Relation) (c : connection) :
  (exists fresh,
     let d := Sql.mkDatabase
                (Sql.entities_table (view c))
                (Sql.relations_table (view c) ++ map row_of_relation fresh) in
     create_relations batch c = (inr fresh, mkConnection d d)
     /\ (forall r, r ∈ batch ->
           ends_exist (Sql.names_of (Sql.entities_table (view c))) r)
     /\ (forall r, r ∈ fresh <->
           r ∈ batch /\ row_of_relation r ∉ Sql.relations_table (view c))
     /\ NoDup fresh)
  \/ exists pre r post n,
       batch = pre ++ r :: post
       /\ (forall x, x ∈ pre ->
             ends_exist (Sql.names_of (Sql.entities_table (view c))) x)
       /\ ((n = from_ r /\ from_ r ∉ Sql.names_of (Sql.entities_table (view c)))
           \/ (n = to r /\ from_ r ∈ Sql.names_of (Sql.entities_table (view c))
               /\ to r ∉ Sql.names_of (Sql.entities_table (view c))))
       /\ create_relations batch c
          = (inl (EntityNotFoundError n), mkConnection (committed c) (committed c)).
Proof.
  destruct (missing_dichotomy (Sql.names_of (Sql.entities_table (view c))) batch)
    as [Hall | (pre & r & post & n & -> & Hpre & Hmiss)].
  - left. destruct (create_relations_loop_ok batch [] c Hall)
      as (fresh & Hrun & Hfresh & Hnd).
    exists fresh. cbv zeta. split; [|auto].
    unfold create_relations, try_except, bind. now rewrite Hrun.
  - right. exists pre, r, post, n. split; [reflexivity|].
    split; [assumption|]. split; [assumption|].
    destruct (create_relations_loop_missing pre r post [] c n Hpre Hmiss)
      as (d & Hrun).
    unfold create_relations, try_except, bind. now rewrite Hrun.
Qed.

Lemma count_one {A} `{EqDecision A} (l : list A) (x : A) :
  NoDup l -> x ∈ l -> length (filter (fun y => y = x) l) = 1.
Proof.
  induction l as [|a l IH]; intros Hnd Hx; [inversion Hx|].
  apply NoDup_cons in Hnd as [Ha Hnd].
  destruct (decide (a = x)) as [-> | Hne].
  - rewrite filter_cons_True by reflexivity. simpl. f_equal.
    clear IH Hx Hnd. induction l as [|b l IH]; [reflexivity|].
    apply not_elem_of_cons in Ha as [Hb Ha].
    rewrite filter_cons_False by congruence. now apply IH.
  - rewrite filter_cons_False by assumption.
    apply elem_of_cons in Hx as [-> | Hx]; [congruence | now apply IH].
Qed.

End CreateRelations.

Section CreateRelationsOutcome.

(** C5. When some relation of the batch has an end that is no stored
    entity, [create_relations] raises not-found for the first missing end
    in batch order ([from] before [to]) and rolls everything back: the
    committed store, relations included, is what it was, and the connection
    shows it again. *)
Theorem create_relations_missing_entity (batch : list Relation) (c : connection) :
  (exists r, r ∈ batch
     /\ (from_ r ∉ Sql.names_of (Sql.entities_table (view c))
         \/ to r ∉ Sql.names_of (Sql.entities_table (view c)))) ->
  exists pre r post n c',
    batch = pre ++ r :: post
    /\ (forall x, x ∈ pre ->
          ends_exist (Sql.names_of (Sql.entities_table (view c))) x)
    /\ ((n = from_ r /\ from_ r ∉ Sql.names_of (Sql.entities_table (view c)))
        \/ (n = to r /\ from_ r ∈ Sql.names_of (Sql.entities_table (view c))
            /\ to r ∉ Sql.names_of (Sql.entities_table (view c))))
    /\ create_relations batch c = (inl (EntityNotFoundError n), c')
    /\ committed c' = committed c
    /\ view c' = committed c.
Proof.
  intros (r & Hr & Hmiss).
  destruct (create_relations_cases batch c)
    as [(fresh & _ & Hall & _) | (pre & x & post & n & -> & Hpre & Hn & Hrun)].
  - exfalso. destruct (Hall r Hr) as [Hfrom Hto]. tauto.
  - exists pre, x, post, n. eexists.
    split; [reflexivity|]. split; [assumption|]. split; [assumption|].
    split; [exact Hrun|]. split; reflexivity.
Qed.

Lemma create_relations_missing_entity_witness :
  exists c',
    create_relations
      [mkRelation "Bob" "Alice" "likes"; mkRelation "Alice" "Carol" "knows"]
      sample_connection
    = (inl (EntityNotFoundError "Carol"), c')
    /\ Sql.relations_table (committed c') = [Sql.mkRelationRow "Alice" "Bob" "knows"].
Proof.
  destruct (create_relations_missing_entity
              [mkRelation "Bob" "Alice" "likes"; mkRelation "Alice" "Carol" "knows"]
              sample_connection)
    as (pre & r & post & n & c' & _ & _ & _ & Hrun & Hkept & _).
  - exists (mkRelation "Alice" "Carol" "knows"). split; [right; now left|].
    right. cbn. rewrite !elem_of_cons, elem_of_nil. intuition discriminate.
  - exists c'. rewrite Hkept. split; [|reflexivity].
    rewrite Hrun. vm_compute in Hrun. now injection Hrun as -> _.
Defined.

Lemma NoDup_map_injective {A B} (f : A -> B) (l : list A) :
  (forall x y, f x = f y -> x = y) -> NoDup l -> NoDup (map f l).
Proof.
  intros Hinj. induction 1 as [|a l Ha Hnd IH]; simpl; [constructor|].
  apply NoDup_cons. split; [|assumption].
  intros (x & E & Hx)%elem_of_map. apply Hinj in E. now subst.
Qed.

(** C6. A call of [create_relations] that returns has inserted exactly the
    triples of the batch that were not stored, each once, after the rows
    that were there, and returns exactly those; every triple of the batch
    then has exactly one row; the work is committed; and the same call
    again returns the empty list and changes nothing. *)
Theorem create_relations_idempotent
    (batch created : list Relation) (c c' : connection) :
  NoDup (Sql.relations_table (view c)) ->
  create_relations batch c = (inr created, c') ->
  (forall r, r ∈ created <->
     r ∈ batch /\ row_of_relation r ∉ Sql.relations_table (view c))
  /\ NoDup created
  /\ Sql.relations_table (view c')
     = Sql.relations_table (view c) ++ map row_of_relation created
  /\ (forall r, r ∈ batch ->
        length (filter (fun x => x = row_of_relation r)
                       (Sql.relations_table (view c'))) = 1)
  /\ committed c' = view c'
  /\ create_relations batch c' = (inr [], c').
Proof.
  intros Hkey Hrun.
  destruct (create_relations_cases batch c)
    as [(fresh & Hok & Hall & Hfresh & Hnd) | (pre & x & post & n & _ & _ & _ & Hfail)];
    [|rewrite Hfail in Hrun; discriminate].
  cbv zeta in Hok. rewrite Hok in Hrun. injection Hrun as <- <-.
  cbn [view committed Sql.relations_table Sql.entities_table].
  assert (Hstored : forall r, r ∈ batch ->
            row_of_relation r
            ∈ Sql.relations_table (view c) ++ map row_of_relation fresh).
  { intros r Hr. apply elem_of_app.
    destruct (decide (row_of_relation r ∈ Sql.relations_table (view c)));
      [now left | right].
    apply elem_of_map. exists r. split; [reflexivity|]. now apply Hfresh. }
  split; [assumption|]. split; [assumption|]. split; [reflexivity|].
  split; [|split; [reflexivity|]].
  - intros r Hr. apply count_one; [|now apply Hstored].
    apply NoDup_app. split; [assumption|]. split.
    + intros x Hx (y & -> & Hy)%elem_of_map. now apply Hfresh in Hy.
    + apply NoDup_map_injective; [apply row_of_relation_inj | assumption].
  - set (d := Sql.mkDatabase _ _).
    destruct (create_relations_cases batch (mkConnection d d))
      as [(again & Hok2 & _ & Hagain & _)
         | (pre & x & post & n & -> & _ & Hn & _)].
    + cbv zeta in Hok2. rewrite Hok2.
      assert (again = []) as ->.
      { destruct again as [|r again]; [reflexivity|].
        assert (Hr : r ∈ r :: again) by now left.
        apply Hagain in Hr as [Hr Hout]. exfalso. apply Hout.
        subst d. simpl. now apply Hstored. }
      subst d. simpl. now rewrite app_nil_r.
    + exfalso. destruct (Hall x) as [Hfrom Hto].
      { apply elem_of_app. right. now left. }
      subst d. simpl in Hn. tauto.
Qed.

Lemma create_relations_idempotent_witness :
  let batch := [mkRelation "Alice" "Bob" "knows"; mkRelation "Bob" "Alice" "knows"] in
  exists c',
    create_relations batch sample_connection
    = (inr [mkRelation "Bob" "Alice" "knows"], c')
    /\ create_relations batch c' = (inr [], c').
Proof.
  intros batch.
  exists (snd (create_relations batch sample_connection)).
  split; [reflexivity|].
  apply (create_relations_idempotent batch [mkRelation "Bob" "Alice" "knows"]
           sample_connection).
  - vm_compute. repeat constructor. rewrite elem_of_nil. tauto.
  - reflexivity.
Defined.

End CreateRelationsOutcome.

(** ** [delete_entities] *)

Section DeleteEntities.

(** The loop never raises; it leaves the rows that none of the names
    touches, in their order, and commits nothing itself. *)
Lemma delete_entities_loop_result (entityNames : list string) :
  forall c : connection,
    delete_entities_loop entityNames c
    = (inr tt,
       mkConnection (committed c)
         (Sql.mkDatabase
            (filter (fun r => Sql.row_name r ∉ entityNames)
                    (Sql.entities_table (view c)))
            (filter (fun r => (Sql.from_entity r ∉ entityNames)
                              /\ (Sql.to_entity r ∉ entityNames))
                    (Sql.relations_table (view c))))).
Proof.
  induction entityNames as [|n rest IH]; intros c.
  - simpl. unfold ret. f_equal. destruct c as [k [es rs]]. simpl. f_equal. f_equal.
    + induction es as [|e es IHes]; [reflexivity|].
      rewrite filter_cons_True by apply not_elem_of_nil. now rewrite <- IHes.
    + induction rs as [|r rs IHrs]; [reflexivity|].
      rewrite filter_cons_True by (split; apply not_elem_of_nil). now rewrite <- IHrs.
  - simpl. unfold bind at 1, execute at 1. unfold bind at 1, execute at 1.
    rewrite IH. simpl. f_equal. f_equal. f_equal.
    + rewrite list_filter_filter. apply list_filter_iff.
      intros r. rewrite not_elem_of_cons. tauto.
    + rewrite list_filter_filter. apply list_filter_iff.
      intros r. rewrite !not_elem_of_cons. tauto.
Qed.

Lemma delete_entities_result (entityNames : list string) (c : connection) :
  let d := Sql.mkDatabase
             (filter (fun r => Sql.row_name r ∉ entityNames)
                     (Sql.entities_table (view c)))
             (filter (fun r => (Sql.from_entity r ∉ entityNames)
                               /\ (Sql.to_entity r ∉ entityNames))
                     (Sql.relations_table (view c))) in
  delete_entities entityNames c = (inr tt, mkConnection d d).
Proof.
  unfold delete_entities, bind. now rewrite delete_entities_loop_result.
Qed.

Lemma filter_all {A} (P : A -> Prop) `{forall x, Decision (P x)} (l : list A) :
  (forall x, x ∈ l -> P x) -> filter P l = l.
Proof.
  induction l as [|a l IH]; intros Hall; [reflexivity|].
  rewrite filter_cons_True by (apply Hall; now left).
  f_equal. apply IH. intros x Hx. apply Hall. now right.
Qed.

(** C8. [delete_entities] always returns.  Afterwards [read_graph] lists the
    entities and relations it listed before except those that a deleted
    name touches: no entity bears a deleted name, no relation has one as
    either end.  The work is committed.  When no name of the list names a
    stored entity (and relations only join stored entities), what the
    connection shows is unchanged; and deleting the same names again
    changes nothing. *)
Theorem delete_entities_cascade (entityNames : list string) (c : connection) :
  exists c' g g0,
    delete_entities entityNames c = (inr tt, c')
    /\ read_graph c = (inr g0, c)
    /\ read_graph c' = (inr g, c')
    /\ (forall e, e ∈ entities g <-> e ∈ entities g0 /\ (name e ∉ entityNames))
    /\ (forall r, r ∈ relations g <->
          r ∈ relations g0 /\ (from_ r ∉ entityNames) /\ (to r ∉ entityNames))
    /\ (forall n, n ∈ entityNames ->
          (forall e, e ∈ entities g -> name e <> n)
          /\ (forall r, r ∈ relations g -> from_ r <> n /\ to r <> n))
    /\ committed c' = view c'
    /\ ((forall n, n ∈ entityNames -> n ∉ Sql.names_of (Sql.entities_table (view c))) ->
        (forall r, r ∈ Sql.relations_table (view c) ->
           Sql.from_entity r ∈ Sql.names_of (Sql.entities_table (view c))
           /\ Sql.to_entity r ∈ Sql.names_of (Sql.entities_table (view c))) ->
        view c' = view c)
    /\ delete_entities entityNames c' = (inr tt, c').
Proof.
  eexists. eexists. eexists.
  split; [apply delete_entities_result|].
  split; [apply read_graph_result|].
  split; [apply read_graph_result|].
  cbn [entities relations view committed Sql.entities_table Sql.relations_table].
  assert (Hent : forall e,
    e ∈ map entity_of_row
          (filter (fun r => Sql.row_name r ∉ entityNames) (Sql.entities_table (view c)))
    <-> e ∈ map entity_of_row (Sql.entities_table (view c)) /\ (name e ∉ entityNames)).
  { intros e. rewrite !elem_of_map. split.
    - intros (row & -> & [Hout Hrow]%list_elem_of_filter). split; [now exists row | exact Hout].
    - intros ((row & -> & Hrow) & Hout). exists row. split; [reflexivity|].
      now apply list_elem_of_filter. }
  assert (Hrel : forall r,
    r ∈ map relation_of_row
          (filter (fun r => (Sql.from_entity r ∉ entityNames) /\ (Sql.to_entity r ∉ entityNames))
                  (Sql.relations_table (view c)))
    <-> r ∈ map relation_of_row (Sql.relations_table (view c))
        /\ (from_ r ∉ entityNames) /\ (to r ∉ entityNames)).
  { intros r. rewrite !elem_of_relations, list_elem_of_filter.
    destruct r; simpl. tauto. }
  split; [exact Hent|]. split; [exact Hrel|].
  split; [|split; [reflexivity|split]].
  - intros n Hn. split.
    + intros e [_ Hout]%Hent E. subst n. contradiction.
    + intros r (_ & Hfrom & Hto)%Hrel. split; intros E; subst n; contradiction.
  - intros Habsent Hrefs. destruct (view c) as [es rs]. simpl in *. f_equal.
    + apply filter_all. intros row Hrow Hin. apply (Habsent _ Hin).
      apply elem_of_map. now exists row.
    + apply filter_all. intros r Hr. destruct (Hrefs r Hr) as [Hfrom Hto].
      split; intros Hin; now apply (Habsent _ Hin).
  - rewrite delete_entities_result.
    cbn [view Sql.entities_table Sql.relations_table].
    rewrite !list_filter_filter.
    f_equal. f_equal; f_equal; apply list_filter_iff; intros x; tauto.
Qed.

Lemma delete_entities_cascade_witness :
  exists c',
    delete_entities ["Ghost"] sample_connection = (inr tt, c')
    /\ view c' = sample_database.
Proof.
  destruct (delete_entities_cascade ["Ghost"] sample_connection)
    as (c' & g & g0 & Hrun & _ & _ & _ & _ & _ & _ & Hnoop & _).
  exists c'. split; [exact Hrun|]. apply Hnoop.
  - intros n ->%list_elem_of_singleton. cbn.
    rewrite !elem_of_cons, elem_of_nil. intuition discriminate.
  - intros r Hr. cbn in Hr. apply list_elem_of_singleton in Hr as ->. cbn.
    rewrite !elem_of_cons. auto.
Defined.

End DeleteEntities.

(** ** [add_observations] *)

Section AddObservations.

(** With unique names, the SELECT reads the one row the UPDATE rewrites. *)
Lemma select_then_update (obs : Observation) (rows : list Sql.entity_row) :
  NoDup (Sql.names_of rows) ->
  entityName obs ∈ Sql.names_of rows ->
  exists field,
    Sql.row_observations
      <$> find (fun r => bool_decide (Sql.row_name r = entityName obs)) rows
    = Some field
    /\ map (fun r => if bool_decide (Sql.row_name r = entityName obs)
                     then Sql.mkEntityRow (Sql.row_name r) (Sql.entity_type r)
                            (Codec.join (Codec.parse_observations field ++ contents obs))
                     else r) rows
       = map (append_contents obs) rows.
Proof.
  induction rows as [|r rows IH]; intros Hnd Hin; [inversion Hin|].
  simpl in Hnd. apply NoDup_cons in Hnd as [Hr Hnd]. simpl.
  destruct (decide (Sql.row_name r = entityName obs)) as [E | Hne].
  - rewrite bool_decide_eq_true_2 by assumption. simpl.
    exists (Sql.row_observations r). split; [reflexivity|].
    f_equal.
    + unfold append_contents. now rewrite bool_decide_eq_true_2.
    + apply map_ext_in. intros x Hx%list_elem_of_In.
      unfold append_contents.
      rewrite bool_decide_eq_false_2; [reflexivity|].
      intros Ex. apply Hr. rewrite E, <- Ex. apply elem_of_map. now exists x.
  - rewrite bool_decide_eq_false_2 by assumption.
    destruct IH as (field & Hfind & Hmap); [assumption| |].
    + simpl in Hin. apply elem_of_cons in Hin as [Hin | Hin]; [congruence | assumption].
    + exists field. split; [assumption|]. f_equal; [|assumption].
      unfold append_contents. now rewrite bool_decide_eq_false_2.
Qed.

Lemma names_of_append_contents (obs : Observation) (rows : list Sql.entity_row) :
  Sql.names_of (map (append_contents obs) rows) = Sql.names_of rows.
Proof.
  unfold Sql.names_of. rewrite map_map. apply map_ext.
  intros r. unfold append_contents. now destruct (bool_decide _).
Qed.

(** One turn of the loop. *)
Lemma add_observations_loop_cons (obs : Observation) (rest : list Observation)
    (added : gmap string (list string)) (c : connection) :
  add_observations_loop (obs :: rest) added c
  = match Sql.select_observations (entityName obs) (view c) with
    | None => (inl (EntityNotFoundError (entityName obs)), c)
    | Some field =>
        add_observations_loop rest (<[entityName obs := contents obs]> added)
          (mkConnection (committed c)
             (Sql.update_observations
                (Codec.join (Codec.parse_observations field ++ contents obs))
                (entityName obs) (view c)))
    end.
Proof.
  simpl. unfold bind at 1, query at 1.
  now destruct (Sql.select_observations (entityName obs) (view c)).
Qed.

Lemma select_observations_none (n : string) (d : Sql.database) :
  n ∉ Sql.names_of (Sql.entities_table d) -> Sql.select_observations n d = None.
Proof.
  unfold Sql.select_observations.
  induction (Sql.entities_table d) as [|r rows IH]; intros Hout; [reflexivity|].
  simpl in *. apply not_elem_of_cons in Hout as [Hne Hout].
  rewrite bool_decide_eq_false_2 by congruence. now apply IH.
Qed.

(** Every item processed appends to its row and overwrites its key of the
    returned mapping; nothing is committed by the loop. *)
Lemma add_observations_loop_ok (batch : list Observation) :
  forall (added : gmap string (list string)) (c : connection),
    NoDup (Sql.names_of (Sql.entities_table (view c))) ->
    (forall o, o ∈ batch -> entityName o ∈ Sql.names_of (Sql.entities_table (view c))) ->
    add_observations_loop batch added c
    = (inr (foldl (fun m o => <[entityName o := contents o]> m) added batch),
       mkConnection (committed c)
         (Sql.mkDatabase
            (foldl (fun rows o => map (append_contents o) rows)
                   (Sql.entities_table (view c)) batch)
            (Sql.relations_table (view c)))).
Proof.
  induction batch as [|o rest IH]; intros added c Hnd Hin.
  - simpl. unfold ret. now destruct c as [k [es rs]].
  - rewrite add_observations_loop_cons. unfold Sql.select_observations.
    destruct (select_then_update o (Sql.entities_table (view c)) Hnd)
      as (field & -> & Hmap); [apply Hin; now left|].
    unfold Sql.update_observations. rewrite Hmap.
    rewrite IH; [reflexivity | |]; cbn [view Sql.entities_table];
      rewrite names_of_append_contents; [assumption|].
    intros x Hx. apply Hin. now right.
Qed.

(** An item that names no stored entity stops the loop where it stands:
    the exception leaves the connection with the appends of the items
    before it, neither committed nor rolled back. *)
Lemma add_observations_loop_unknown (pre : list Observation) :
  forall (o : Observation) (post : list Observation)
         (added : gmap string (list string)) (c : connection),
    NoDup (Sql.names_of (Sql.entities_table (view c))) ->
    (forall x, x ∈ pre -> entityName x ∈ Sql.names_of (Sql.entities_table (view c))) ->
    entityName o ∉ Sql.names_of (Sql.entities_table (view c)) ->
    add_observations_loop (pre ++ o :: post) added c
    = (inl (EntityNotFoundError (entityName o)),
       mkConnection (committed c)
         (Sql.mkDatabase
            (foldl (fun rows x => map (append_contents x) rows)
                   (Sql.entities_table (view c)) pre)
            (Sql.relations_table (view c)))).
Proof.
  induction pre as [|x pre IH]; intros o post added c Hnd Hin Hout.
  - rewrite app_nil_l, add_observations_loop_cons.
    rewrite select_observations_none by assumption.
    now destruct c as [k [es rs]].
  - rewrite <- app_comm_cons, add_observations_loop_cons.
    unfold Sql.select_observations.
    destruct (select_then_update x (Sql.entities_table (view c)) Hnd)
      as (field & -> & Hmap); [apply Hin; now left|].
    unfold Sql.update_observations. rewrite Hmap.
    rewrite IH; [reflexivity | | |]; cbn [view Sql.entities_table];
      rewrite names_of_append_contents; [assumption | | assumption].
    intros y Hy. apply Hin. now right.
Qed.


Lemma contents_for_cons (n : string) (o : Observation) (rest : list Observation) :
  contents_for n (o :: rest)
  = if bool_decide (entityName o = n)
    then contents o :: contents_for n rest
    else contents_for n rest.
Proof.
  unfold contents_for. rewrite filter_cons.
  destruct (decide (entityName o = n)).
  - now rewrite bool_decide_eq_true_2.
  - now rewrite bool_decide_eq_false_2.
Qed.


(** The returned mapping keeps, for each name, the contents of the last
    item addressed to it. *)
Lemma foldl_insert_last (batch : list Observation) :
  forall (added : gmap string (list string)) (n : string),
    foldl (fun m o => <[entityName o := contents o]> m) added batch !! n
    = match last (contents_for n batch) with
      | Some latest => Some latest
      | None => added !! n
      end.
Proof.
  induction batch as [|o rest IH]; intros added n; [reflexivity|].
  simpl foldl. rewrite IH, contents_for_cons.
  destruct (decide (entityName o = n)) as [E | Hne].
  - rewrite bool_decide_eq_true_2 by assumption. rewrite last_cons.
    destruct (last (contents_for n rest)); [reflexivity|].
    subst n. apply lookup_insert_eq.
  - rewrite bool_decide_eq_false_2 by assumption.
    destruct (last (contents_for n rest)); [reflexivity|].
    now apply lookup_insert_ne.
Qed.

End AddObservations.

Section AddObservationsOutcome.



(** C2, on the code. A batch whose second item names no entity raises
    not-found for it, but the append of the first item stays on the
    connection: nothing rolls it back, [read_graph] lists it, and the next
    call that commits (here an empty [create_entities]) writes it to the
    store. *)
Theorem add_observations_failed_batch_keeps_appends :
  let batch := [mkObservation "Bob" ["seen"]; mkObservation "Ghost" ["boo"]] in
  let outcome := add_observations batch sample_connection in
  let after := snd outcome in
  fst outcome = inl (EntityNotFoundError "Ghost")
  /\ committed after = sample_database
  /\ view after <> sample_database
  /\ fst (read_graph after)
     = inr (mkGraph [mkEntity "Alice" "person" ["a"; "b"];
                     mkEntity "Bob" "person" ["seen"]]
                    [mkRelation "Alice" "Bob" "knows"])
  /\ fst (create_entities [] after) = inr []
  /\ committed (snd (create_entities [] after)) = view after.
Proof.
  cbv zeta. split; [reflexivity|]. split; [reflexivity|].
  split; [vm_compute; discriminate|].
  split; [reflexivity|]. split; reflexivity.
Qed.

End AddObservationsOutcome.

(** ** What every reachable connection satisfies *)

Section Invariant.

Lemma consistent_same_keys (d d' : Sql.database) :
  same_keys d d' -> consistent d' -> consistent d.
Proof.
  intros [Hn Hr] [H1 H2 H3]. split; rewrite ?Hn, ?Hr; assumption.
Qed.

Lemma names_of_rows_of_entities (batch : list Entity) :
  Sql.names_of (map row_of_entity batch) = map name batch.
Proof. unfold Sql.names_of. rewrite map_map. reflexivity. Qed.

Lemma names_of_update (field n : string) (d : Sql.database) :
  same_keys (Sql.update_observations field n d) d.
Proof.
  split; [|reflexivity]. unfold Sql.update_observations, Sql.names_of. simpl.
  rewrite map_map. apply map_ext. intros r. now destruct (bool_decide _).
Qed.

Lemma names_of_foldl_append (batch : list Observation) (rows : list Sql.entity_row) :
  Sql.names_of (foldl (fun rows o => map (append_contents o) rows) rows batch)
  = Sql.names_of rows.
Proof.
  revert rows. induction batch as [|o rest IH]; intros rows; [reflexivity|].
  simpl. now rewrite IH, names_of_append_contents.
Qed.

Lemma NoDup_names_filter (P : Sql.entity_row -> Prop) `{forall r, Decision (P r)}
    (rows : list Sql.entity_row) :
  NoDup (Sql.names_of rows) -> NoDup (Sql.names_of (filter P rows)).
Proof.
  induction rows as [|r rows IH]; intros Hnd; [constructor|].
  simpl in Hnd. apply NoDup_cons in Hnd as [Hr Hnd].
  rewrite filter_cons. destruct (decide (P r)); [|now apply IH].
  simpl. apply NoDup_cons. split; [|now apply IH].
  intros (x & E & [_ Hx]%list_elem_of_filter)%elem_of_map.
  apply Hr, elem_of_map. now exists x.
Qed.

Lemma create_entities_consistent (batch : list Entity) (c : connection) :
  consistent (committed c) -> consistent (view c) ->
  let c' := snd (create_entities batch c) in
  consistent (committed c') /\ view c' = committed c'.
Proof.
  intros Hk [Hn Ht He].
  destruct (create_entities_cases batch c)
    as [(Hnd & Hfresh & Hok) | (pre & e & post & _ & _ & _ & _ & Hfail)].
  - cbv zeta in *. rewrite Hok. simpl. split; [|reflexivity].
    split; simpl.
    + rewrite names_of_app, names_of_rows_of_entities. apply NoDup_app.
      split; [assumption|]. split; [|assumption].
      intros n Hin (x & -> & Hx)%elem_of_map. now apply (Hfresh x).
    + assumption.
    + intros r Hr. rewrite names_of_app, !elem_of_app.
      destruct (He r Hr). auto.
  - cbv zeta. rewrite Hfail. simpl. auto.
Qed.

Lemma create_relations_consistent (batch : list Relation) (c : connection) :
  consistent (committed c) -> consistent (view c) ->
  let c' := snd (create_relations batch c) in
  consistent (committed c') /\ view c' = committed c'.
Proof.
  intros Hk [Hn Ht He].
  destruct (create_relations_cases batch c)
    as [(fresh & Hok & Hall & Hfresh & Hnd) | (pre & x & post & n & _ & _ & _ & Hfail)].
  - cbv zeta in *. rewrite Hok. simpl. split; [|reflexivity].
    split; simpl.
    + assumption.
    + apply NoDup_app. split; [assumption|]. split.
      * intros x Hx (y & -> & Hy)%elem_of_map. now apply Hfresh in Hy.
      * apply NoDup_map_injective; [apply row_of_relation_inj | assumption].
    + intros r [Hr | (y & -> & Hy)%elem_of_map]%elem_of_app; [now apply He|].
      apply Hfresh in Hy as [Hy _]. apply (Hall y Hy).
  - cbv zeta. rewrite Hfail. simpl. auto.
Qed.

Lemma unknown_dichotomy (names : list string) (batch : list Observation) :
  (forall o, o ∈ batch -> entityName o ∈ names)
  \/ exists pre o post,
       batch = pre ++ o :: post
       /\ (forall x, x ∈ pre -> entityName x ∈ names)
       /\ entityName o ∉ names.
Proof.
  induction batch as [|o batch IH].
  - left. intros o H. inversion H.
  - destruct (decide (entityName o ∈ names)) as [Hin | Hout].
    + destruct IH as [Hall | (pre & x & post & -> & Hpre & Hx)].
      * left. intros y [-> | Hy]%elem_of_cons; auto.
      * right. exists (o :: pre), x, post. split; [reflexivity|].
        split; [|assumption]. intros y [-> | Hy]%elem_of_cons; auto.
    + right. exists [], o, batch. split; [reflexivity|].
      split; [intros y H; inversion H | assumption].
Qed.

(** Returning or raising, [add_observations] leaves names and relations
    alone; when it raises it also leaves the committed store alone. *)
Lemma add_observations_keys (batch : list Observation) (c : connection) :
  NoDup (Sql.names_of (Sql.entities_table (view c))) ->
  let c' := snd (add_observations batch c) in
  same_keys (view c') (view c)
  /\ (committed c' = view c' \/ committed c' = committed c).
Proof.
  intros Hnd. cbv zeta. unfold add_observations, bind.
  destruct (unknown_dichotomy (Sql.names_of (Sql.entities_table (view c))) batch)
    as [Hall | (pre & o & post & -> & Hpre & Ho)].
  - rewrite (add_observations_loop_ok batch ∅ c Hnd Hall). simpl.
    split; [|now left]. split; [apply names_of_foldl_append | reflexivity].
  - rewrite (add_observations_loop_unknown pre o post ∅ c Hnd Hpre Ho). simpl.
    split; [|now right]. split; [apply names_of_foldl_append | reflexivity].
Qed.

Lemma delete_entities_consistent (entityNames : list string) (c : connection) :
  consistent (view c) ->
  let c' := snd (delete_entities entityNames c) in
  consistent (committed c') /\ view c' = committed c'.
Proof.
  intros [Hn Ht He]. cbv zeta. rewrite delete_entities_result. simpl.
  split; [|reflexivity]. split; simpl.
  - now apply NoDup_names_filter.
  - now apply NoDup_filter.
  - intros r [[Hfrom Hto] Hr]%list_elem_of_filter.
    destruct (He r Hr) as [(x & Ex & Hx)%elem_of_map (y & Ey & Hy)%elem_of_map].
    split; apply elem_of_map; [exists x | exists y]; (split; [assumption|]);
      apply list_elem_of_filter; (split; [congruence | assumption]).
Qed.

Lemma delete_observations_loop_keys (deletions : list Deletion.t) :
  forall c : connection,
    exists d,
      delete_observations_loop deletions c = (inr tt, mkConnection (committed c) d)
      /\ same_keys d (view c).
Proof.
  induction deletions as [|x rest IH]; intros c.
  - exists (view c). split; [now destruct c | now split].
  - simpl. unfold bind at 1, query at 1.
    destruct (Sql.select_observations (Deletion.entityName x) (view c)) as [field|].
    + unfold bind at 1, execute at 1.
      set (c1 := mkConnection _ _).
      destruct (IH c1) as (d & Hrun & Hn & Hr).
      exists d. split; [exact Hrun|]. subst c1. cbn [view] in Hn, Hr.
      destruct (names_of_update
                  (Codec.join
                     (filter (fun obs => obs ∉ Deletion.observations x)
                             (Codec.parse_observations field)))
                  (Deletion.entityName x) (view c)) as [Hn' Hr'].
      split; etransitivity; eassumption.
    + destruct (IH c) as (d & Hrun & Hkeys). now exists d.
Qed.

Lemma delete_relations_loop_consistent (batch : list Relation) :
  forall c : connection,
    consistent (view c) ->
    exists d,
      delete_relations_loop batch c = (inr tt, mkConnection (committed c) d)
      /\ consistent d.
Proof.
  induction batch as [|x rest IH]; intros c Hc.
  - exists (view c). split; [now destruct c | assumption].
  - simpl. unfold bind at 1, execute at 1.
    set (c1 := mkConnection _ _).
    destruct (IH c1) as (d & Hrun & Hd); [|now exists d].
    subst c1. destruct Hc as [Hn Ht He]. split; simpl.
    + assumption.
    + now apply NoDup_filter.
    + intros r [_ Hr]%list_elem_of_filter. now apply He.
Qed.

(** The committed store of a reachable connection is consistent, and what
    the connection shows differs from it by types and observations at
    most. *)
Lemma reachable_invariant (c : connection) :
  reachable c -> consistent (committed c) /\ same_keys (view c) (committed c).
Proof.
  induction 1 as [|k c Hreach [Hk Hkeys]].
  - split; [|now split]. split; simpl; [constructor | constructor |].
    intros r H. inversion H.
  - assert (Hv : consistent (view c)) by now apply (consistent_same_keys _ _ Hkeys).
    assert (Hcommit : forall c' : connection,
              consistent (committed c') /\ view c' = committed c' ->
              consistent (committed c') /\ same_keys (view c') (committed c')).
    { intros c' [Hc' E]. split; [assumption|]. rewrite E. now split. }
    destruct k; simpl.
    + split; [assumption | now split].
    + split; [assumption | now split].
    + apply Hcommit. now apply create_entities_consistent.
    + apply Hcommit. now apply create_relations_consistent.
    + now split.
    + destruct (add_observations_keys batch c (unique_names _ Hv)) as [Hsame [E | E]].
      * apply Hcommit. split; [|now symmetry].
        rewrite E. apply (consistent_same_keys _ _ Hsame Hv).
      * rewrite E. split; [assumption|].
        destruct Hsame as [Hn Hr], Hkeys as [Hn' Hr']. split; congruence.
    + apply Hcommit. now apply delete_entities_consistent.
    + unfold delete_observations, bind.
      destruct (delete_observations_loop_keys deletions c) as (d & -> & Hsame).
      simpl. split; [|now split]. apply (consistent_same_keys _ _ Hsame Hv).
    + unfold delete_relations, bind.
      destruct (delete_relations_loop_consistent batch c Hv) as (d & -> & Hd).
      simpl. split; [assumption | now split].
    + now split.
    + unfold search_nodes. destruct (bool_decide _); [now split|].
      unfold bind, query. simpl.
      destruct (collect_matches _ _ _). simpl. now split.
Qed.

Lemma reachable_consistent (c : connection) :
  reachable c -> consistent (view c).
Proof.
  intros [Hk Hkeys]%reachable_invariant. apply (consistent_same_keys _ _ Hkeys Hk).
Qed.

(** The store of the examples is reachable: two entities are created, then
    one relation. *)
Example sample_connection_reachable : reachable sample_connection.
Proof.
  change sample_connection
    with (connection_after
            (CreateRelations [mkRelation "Alice" "Bob" "knows"])
            (connection_after
               (CreateEntities [mkEntity "Alice" "person" ["a"; "b"];
                                mkEntity "Bob" "person" []])
               fresh_connection)).
  repeat constructor.
Qed.

End Invariant.

(** ** More on the stored form of observations *)

Section StoredForm.

Import Codec.

Lemma append_assoc (a b c : string) : (a +:+ b) +:+ c = a +:+ (b +:+ c).
Proof.
  induction a as [|x a IH]; [reflexivity|].
  rewrite !append_cons. now rewrite IH.
Qed.

Lemma join_app (l1 l2 : list string) :
  l1 <> [] -> l2 <> [] ->
  join (l1 ++ l2) = join l1 +:+ String delimiter (join l2).
Proof.
  induction l1 as [|x l1 IH]; intros H1 H2; [congruence|].
  destruct l1 as [|y l1].
  - simpl app. now rewrite join_cons.
  - rewrite <- app_comm_cons, join_cons by (simpl; discriminate).
    rewrite IH by (assumption || discriminate).
    rewrite (join_cons x (y :: l1)) by discriminate.
    rewrite append_assoc. reflexivity.
Qed.

(** X1. Whatever observations an entity is created with, [read_graph]
    lists it with the stored text split at the delimiter: pieces that hold
    no delimiter, never the single empty string, and that join to the same
    text as the observations given. *)
Theorem stored_observations_read_back
    (batch created : list Entity) (c c' : connection) (e : Entity) :
  create_entities batch c = (inr created, c') ->
  e ∈ batch ->
  exists g read,
    read_graph c' = (inr g, c')
    /\ mkEntity (name e) (entityType e) read ∈ entities g
    /\ read = parse_observations (join (observations e))
    /\ join read = join (observations e)
    /\ Forall (fun o => comma_free o = true) read
    /\ read <> [""].
Proof.
  intros Hrun He.
  destruct (create_entities_cases batch c)
    as [(_ & _ & Hok) | (pre & x & post & _ & _ & _ & _ & Hfail)];
    [|rewrite Hfail in Hrun; discriminate].
  cbv zeta in Hok. rewrite Hok in Hrun. injection Hrun as <- <-.
  eexists. exists (parse_observations (join (observations e))).
  split; [apply read_graph_result|]. cbn [entities view Sql.entities_table].
  split; [|split; [reflexivity|split; [apply join_parse_observations|split]]].
  - apply elem_of_map. exists (row_of_entity e). split; [reflexivity|].
    apply elem_of_app. right. apply elem_of_map. now exists e.
  - apply comma_free_parse.
  - apply parse_not_single_empty.
Qed.

Lemma stored_observations_read_back_witness :
  exists g c',
    read_graph c' = (inr g, c')
    /\ mkEntity "E" "note" ["a"; "b"; "c"] ∈ entities g.
Proof.
  destruct (stored_observations_read_back
              [mkEntity "E" "note" ["a,b"; "c"]] [mkEntity "E" "note" ["a,b"; "c"]]
              fresh_connection
              (snd (create_entities [mkEntity "E" "note" ["a,b"; "c"]] fresh_connection))
              (mkEntity "E" "note" ["a,b"; "c"]))
    as (g & read & Hread & Hin & -> & _).
  - reflexivity.
  - now left.
  - exists g. eexists. split; [exact Hread | exact Hin].
Defined.

(** X2. An observation that holds the delimiter is stored exactly as the
    two observations on either side of it: the two entities have the same
    row. *)
Theorem delimiter_splits_observation
    (n t x y : string) (before after : list string) :
  row_of_entity (mkEntity n t (before ++ [x +:+ String delimiter y] ++ after))
  = row_of_entity (mkEntity n t (before ++ [x; y] ++ after)).
Proof.
  unfold row_of_entity. cbn [name entityType observations]. f_equal.
  assert (Hmid : join ([x +:+ String delimiter y] ++ after) = join ([x; y] ++ after)).
  { destruct after as [|z after]; [reflexivity|].
    simpl app. rewrite !join_cons by discriminate.
    now rewrite append_assoc. }
  destruct before as [|b before]; [exact Hmid|].
  rewrite (join_app (b :: before) ([x +:+ String delimiter y] ++ after))
    by (simpl; discriminate).
  rewrite (join_app (b :: before) ([x; y] ++ after)) by (simpl; discriminate).
  now rewrite Hmid.
Qed.

End StoredForm.

(** ** More on [create_entities] and [delete_entities] *)

Section CreateAndDelete.

Lemma filter_none {A} (P : A -> Prop) `{forall x, Decision (P x)} (l : list A) :
  (forall x, x ∈ l -> ~ P x) -> filter P l = [].
Proof.
  induction l as [|a l IH]; intros Hnone; [reflexivity|].
  rewrite filter_cons_False by (apply Hnone; now left).
  apply IH. intros x Hx. apply Hnone. now right.
Qed.

Lemma filter_ext_in {A} (P Q : A -> Prop)
    `{forall x, Decision (P x)} `{forall x, Decision (Q x)} (l : list A) :
  (forall x, x ∈ l -> P x <-> Q x) -> filter P l = filter Q l.
Proof.
  induction l as [|a l IH]; intros Hext; [reflexivity|].
  rewrite !filter_cons.
  assert (Ha : P a <-> Q a) by (apply Hext; now left).
  assert (IH' : filter P l = filter Q l).
  { apply IH. intros x Hx. apply Hext. now right. }
  destruct (decide (P a)), (decide (Q a)); try tauto; now rewrite IH'.
Qed.

(** X3. [create_entities] returns exactly when the names of the batch are
    pairwise different and none of them is stored.  It then returns the
    batch as given, appends its rows after the stored ones, leaves the
    relations alone and commits. *)
Theorem create_entities_succeeds_iff (batch : list Entity) (c : connection) :
  ((exists created c', create_entities batch c = (inr created, c'))
   <-> NoDup (map name batch)
       /\ forall e, e ∈ batch -> name e ∉ Sql.names_of (Sql.entities_table (view c)))
  /\ forall created c',
       create_entities batch c = (inr created, c') ->
       created = batch
       /\ committed c' = view c'
       /\ Sql.entities_table (view c')
          = Sql.entities_table (view c) ++ map row_of_entity batch
       /\ Sql.relations_table (view c') = Sql.relations_table (view c).
Proof.
  destruct (create_entities_cases batch c)
    as [(Hnd & Hfresh & Hok) | (pre & e & post & -> & _ & _ & Hhit & Hfail)].
  - cbv zeta in Hok. split.
    + split; [auto|]. intros _. eexists. eexists. exact Hok.
    + intros created c' Hrun. rewrite Hok in Hrun. injection Hrun as <- <-. auto.
  - split.
    + split.
      * intros (created & c' & Hrun). rewrite Hfail in Hrun. discriminate.
      * intros [Hnd Hfresh]. exfalso. destruct Hhit as [Hin | Hdup].
        -- apply (Hfresh e); [|assumption]. apply elem_of_app. right. now left.
        -- rewrite map_app in Hnd. simpl in Hnd.
           apply NoDup_app in Hnd as (_ & Hdisj & _).
           apply (Hdisj _ Hdup). now left.
    + intros created c' Hrun. rewrite Hfail in Hrun. discriminate.
Qed.

(** X4. Deleting the names of a batch that [create_entities] has just
    stored brings back the store as the connection showed it before, when
    its relations only joined stored entities; and that store is then
    committed. *)
Theorem delete_entities_undoes_create
    (batch created : list Entity) (c c' : connection) :
  (forall r, r ∈ Sql.relations_table (view c) ->
     Sql.from_entity r ∈ Sql.names_of (Sql.entities_table (view c))
     /\ Sql.to_entity r ∈ Sql.names_of (Sql.entities_table (view c))) ->
  create_entities batch c = (inr created, c') ->
  delete_entities (map name batch) c' = (inr tt, mkConnection (view c) (view c)).
Proof.
  intros Hends Hrun.
  destruct (create_entities_cases batch c)
    as [(_ & Hfresh & Hok) | (pre & e & post & _ & _ & _ & _ & Hfail)];
    [|rewrite Hfail in Hrun; discriminate].
  cbv zeta in Hok. rewrite Hok in Hrun. injection Hrun as _ <-.
  rewrite delete_entities_result. cbv zeta.
  cbn [view Sql.entities_table Sql.relations_table].
  assert (Hold : forall n, n ∈ Sql.names_of (Sql.entities_table (view c)) ->
                           n ∉ map name batch).
  { intros n Hn (e & -> & He)%elem_of_map. now apply (Hfresh e). }
  assert (Hd : Sql.mkDatabase
                 (filter (fun r => Sql.row_name r ∉ map name batch)
                         (Sql.entities_table (view c) ++ map row_of_entity batch))
                 (filter (fun r => (Sql.from_entity r ∉ map name batch)
                                   /\ (Sql.to_entity r ∉ map name batch))
                         (Sql.relations_table (view c)))
               = view c).
  { destruct (view c) as [es rs]. simpl in *. f_equal.
    - rewrite filter_app, filter_all, filter_none; [apply app_nil_r | |].
      + intros r (e & -> & He)%elem_of_map Hout. apply Hout.
        apply elem_of_map. now exists e.
      + intros r Hr. apply Hold, elem_of_map. now exists r.
    - apply filter_all. intros r Hr. destruct (Hends r Hr). auto. }
  now rewrite Hd.
Qed.

Lemma delete_entities_undoes_create_witness :
  delete_entities ["Carol"; "Dave"]
    (snd (create_entities [mkEntity "Carol" "person" ["x"]; mkEntity "Dave" "person" []]
            sample_connection))
  = (inr tt, sample_connection).
Proof.
  apply (delete_entities_undoes_create
           [mkEntity "Carol" "person" ["x"]; mkEntity "Dave" "person" []]
           [mkEntity "Carol" "person" ["x"]; mkEntity "Dave" "person" []]
           sample_connection).
  - intros r Hr. cbn in Hr. apply list_elem_of_singleton in Hr as ->. cbn.
    rewrite !elem_of_cons. auto.
  - reflexivity.
Defined.

End CreateAndDelete.

(** ** More on [add_observations] *)

Section AddObservationsMore.


(** X5. A batch whose first unknown name comes after some known ones raises
    not-found for that name and commits nothing; but the connection is left
    showing what [add_observations] of the items before it stores, and
    those items alone would have been accepted. *)
Theorem add_observations_unknown_name
    (pre post : list Observation) (o : Observation) (c : connection) :
  NoDup (Sql.names_of (Sql.entities_table (view c))) ->
  (forall x, x ∈ pre -> entityName x ∈ Sql.names_of (Sql.entities_table (view c))) ->
  entityName o ∉ Sql.names_of (Sql.entities_table (view c)) ->
  exists c' added stored,
    add_observations (pre ++ o :: post) c
    = (inl (EntityNotFoundError (entityName o)), c')
    /\ committed c' = committed c
    /\ add_observations pre c = (inr added, stored)
    /\ view c' = view stored.
Proof.
  intros Hnd Hpre Ho. eexists. eexists. eexists.
  unfold add_observations, bind.
  rewrite (add_observations_loop_unknown pre o post ∅ c Hnd Hpre Ho).
  rewrite (add_observations_loop_ok pre ∅ c Hnd Hpre).
  simpl. auto.
Qed.

Lemma add_observations_unknown_name_witness :
  exists c',
    add_observations
      [mkObservation "Bob" ["seen"]; mkObservation "Ghost" ["boo"];
       mkObservation "Alice" ["late"]]
      sample_connection
    = (inl (EntityNotFoundError "Ghost"), c')
    /\ committed c' = sample_database.
Proof.
  destruct (add_observations_unknown_name
              [mkObservation "Bob" ["seen"]] [mkObservation "Alice" ["late"]]
              (mkObservation "Ghost" ["boo"]) sample_connection)
    as (c' & added & stored & Hrun & Hkept & _).
  - vm_compute. repeat constructor; rewrite ?elem_of_cons, ?elem_of_nil; intuition discriminate.
  - intros x ->%list_elem_of_singleton. cbn. rewrite !elem_of_cons. auto.
  - cbn. rewrite !elem_of_cons, elem_of_nil. intuition discriminate.
  - exists c'. split; [exact Hrun | exact Hkept].
Defined.



Lemma append_nothing (o : Observation) (r : Sql.entity_row) :
  contents o = [] -> append_contents o r = r.
Proof.
  intros Hc. unfold append_contents. rewrite Hc, app_nil_r.
  rewrite join_parse_observations. destruct r. now destruct (bool_decide _).
Qed.

(** X7. Items with empty contents change no stored row: the call returns
    with the store as the connection showed it, now committed, and maps
    every name of the batch to the empty list. *)
Theorem add_observations_nothing_to_add
    (batch : list Observation) (c : connection) :
  NoDup (Sql.names_of (Sql.entities_table (view c))) ->
  (forall o, o ∈ batch ->
     entityName o ∈ Sql.names_of (Sql.entities_table (view c))) ->
  (forall o, o ∈ batch -> contents o = []) ->
  exists added,
    add_observations batch c = (inr added, mkConnection (view c) (view c))
    /\ forall o, o ∈ batch -> added !! entityName o = Some [].
Proof.
  intros Hnd Hin Hempty. eexists. split.
  - unfold add_observations, bind.
    rewrite (add_observations_loop_ok batch ∅ c Hnd Hin). simpl.
    assert (Hrows : forall rows,
              foldl (fun rows o => map (append_contents o) rows) rows batch = rows).
    { clear Hin. induction batch as [|o rest IH]; intros rows; [reflexivity|].
      simpl. rewrite IH by (intros x Hx; apply Hempty; now right).
      rewrite <- (map_id rows) at 2. apply map_ext.
      intros r. apply append_nothing, Hempty. now left. }
    rewrite Hrows. now destruct (view c).
  - intros o Ho. rewrite foldl_insert_last.
    assert (Hone : contents o ∈ contents_for (entityName o) batch).
    { unfold contents_for. apply elem_of_map. exists o. split; [reflexivity|].
      now apply list_elem_of_filter. }
    destruct (last (contents_for (entityName o) batch)) as [latest|] eqn:Hlast.
    + apply last_Some_elem_of in Hlast.
      unfold contents_for in Hlast.
      apply elem_of_map in Hlast as (x & -> & [_ Hx]%list_elem_of_filter).
      now rewrite (Hempty x Hx).
    + exfalso. assert (Hsome : is_Some (last (contents_for (entityName o) batch))).
      { apply last_is_Some. intros E. rewrite E in Hone. inversion Hone. }
      rewrite Hlast in Hsome. now destruct Hsome.
Qed.

Lemma add_observations_nothing_to_add_witness :
  exists added,
    add_observations [mkObservation "Alice" []; mkObservation "Bob" []]
      sample_connection
    = (inr added, sample_connection)
    /\ added !! "Alice" = Some [].
Proof.
  destruct (add_observations_nothing_to_add
              [mkObservation "Alice" []; mkObservation "Bob" []] sample_connection)
    as (added & Hrun & Hmap).
  - vm_compute. repeat constructor; rewrite ?elem_of_cons, ?elem_of_nil; intuition discriminate.
  - intros o Ho.
    repeat (apply elem_of_cons in Ho as [-> | Ho]; [cbn; rewrite !elem_of_cons; auto|]).
    inversion Ho.
  - intros o Ho.
    repeat (apply elem_of_cons in Ho as [-> | Ho]; [reflexivity|]).
    inversion Ho.
  - exists added. split; [exact Hrun|].
    apply (Hmap (mkObservation "Alice" [])). now left.
Defined.

End AddObservationsMore.

(** ** [delete_observations] *)

Section DeleteObservations.

(** One turn of the loop. *)
Lemma delete_observations_loop_cons
    (deletion : Deletion.t) (rest : list Deletion.t) (c : connection) :
  delete_observations_loop (deletion :: rest) c
  = match Sql.select_observations (Deletion.entityName deletion) (view c) with
    | Some field =>
        delete_observations_loop rest
          (mkConnection (committed c)
             (Sql.update_observations
                (Codec.join
                   (filter (fun obs => obs ∉ Deletion.observations deletion)
                           (Codec.parse_observations field)))
                (Deletion.entityName deletion) (view c)))
    | None => delete_observations_loop rest c
    end.
Proof.
  simpl. unfold bind at 1, query at 1.
  now destruct (Sql.select_observations (Deletion.entityName deletion) (view c)).
Qed.

(** With unique names, the SELECT reads the one row the UPDATE rewrites;
    without a row of that name there is nothing to rewrite. *)
Lemma select_then_prune (deletion : Deletion.t) (rows : list Sql.entity_row) :
  NoDup (Sql.names_of rows) ->
  match Sql.row_observations
          <$> find (fun r => bool_decide (Sql.row_name r = Deletion.entityName deletion))
                   rows with
  | Some field =>
      map (fun r => if bool_decide (Sql.row_name r = Deletion.entityName deletion)
                    then Sql.mkEntityRow (Sql.row_name r) (Sql.entity_type r)
                           (Codec.join
                              (filter (fun obs => obs ∉ Deletion.observations deletion)
                                      (Codec.parse_observations field)))
                    else r) rows
      = map (prune deletion) rows
  | None => map (prune deletion) rows = rows
  end.
Proof.
  induction rows as [|r rows IH]; intros Hnd; [reflexivity|].
  simpl in Hnd. apply NoDup_cons in Hnd as [Hr Hnd]. simpl.
  destruct (decide (Sql.row_name r = Deletion.entityName deletion)) as [E | Hne].
  - rewrite bool_decide_eq_true_2 by assumption. simpl. f_equal.
    + unfold prune. now rewrite bool_decide_eq_true_2.
    + apply map_ext_in. intros x Hx%list_elem_of_In.
      unfold prune. rewrite bool_decide_eq_false_2; [reflexivity|].
      intros Ex. apply Hr. rewrite E, <- Ex. apply elem_of_map. now exists x.
  - rewrite bool_decide_eq_false_2 by assumption.
    specialize (IH Hnd).
    destruct (Sql.row_observations <$> find _ rows) as [field|]; simpl.
    + f_equal; [|assumption]. unfold prune. now rewrite bool_decide_eq_false_2.
    + f_equal; [|assumption]. unfold prune. now rewrite bool_decide_eq_false_2.
Qed.

Lemma names_of_prune (deletion : Deletion.t) (rows : list Sql.entity_row) :
  Sql.names_of (map (prune deletion) rows) = Sql.names_of rows.
Proof.
  unfold Sql.names_of. rewrite map_map. apply map_ext.
  intros r. unfold prune. now destruct (bool_decide _).
Qed.

(** The loop never raises: every item prunes the row of its name, if there
    is one; nothing is committed by the loop. *)
Lemma delete_observations_loop_result (deletions : list Deletion.t) :
  forall c : connection,
    NoDup (Sql.names_of (Sql.entities_table (view c))) ->
    delete_observations_loop deletions c
    = (inr tt,
       mkConnection (committed c)
         (Sql.mkDatabase
            (foldl (fun rows d => map (prune d) rows)
                   (Sql.entities_table (view c)) deletions)
            (Sql.relations_table (view c)))).
Proof.
  induction deletions as [|d rest IH]; intros c Hnd.
  - simpl. unfold ret. now destruct c as [k [es rs]].
  - rewrite delete_observations_loop_cons. unfold Sql.select_observations.
    pose proof (select_then_prune d (Sql.entities_table (view c)) Hnd) as Hsel.
    destruct (Sql.row_observations <$> find _ (Sql.entities_table (view c)))
      as [field|].
    + unfold Sql.update_observations. rewrite Hsel.
      rewrite IH; [reflexivity|]. cbn [view Sql.entities_table].
      now rewrite names_of_prune.
    + rewrite IH by assumption. simpl. now rewrite Hsel.
Qed.

Lemma foldl_rows (A : Type) (f : A -> Sql.entity_row -> Sql.entity_row)
    (items : list A) (rows : list Sql.entity_row) :
  foldl (fun rows x => map (f x) rows) rows items
  = map (fun r => foldl (fun r x => f x r) r items) rows.
Proof.
  revert rows. induction items as [|x rest IH]; intros rows; simpl.
  - now rewrite map_id.
  - rewrite IH, map_map. reflexivity.
Qed.

Lemma removed_for_cons (n : string) (d : Deletion.t) (rest : list Deletion.t) :
  removed_for n (d :: rest)
  = if bool_decide (Deletion.entityName d = n)
    then Deletion.observations d ++ removed_for n rest
    else removed_for n rest.
Proof.
  unfold removed_for. rewrite filter_cons.
  destruct (decide (Deletion.entityName d = n)).
  - now rewrite bool_decide_eq_true_2.
  - now rewrite bool_decide_eq_false_2.
Qed.

(** Filtering what a joined list reads as, or the list itself, joins to the
    same text: the one list that does not read back, the single empty
    string, joins to the empty text whatever is kept of it. *)
Lemma join_filter_read_back (P : string -> Prop) `{forall x, Decision (P x)}
    (parts : list string) :
  Forall (fun o => Codec.comma_free o = true) parts ->
  Codec.join (filter P (Codec.parse_observations (Codec.join parts)))
  = Codec.join (filter P parts).
Proof.
  intros Hfree. destruct (decide (parts = [""])) as [-> | Hne].
  - simpl. rewrite filter_cons. now destruct (decide (P "")).
  - now rewrite parse_join.
Qed.

Lemma comma_free_filter (P : string -> Prop) `{forall x, Decision (P x)}
    (parts : list string) :
  Forall (fun o => Codec.comma_free o = true) parts ->
  Forall (fun o => Codec.comma_free o = true) (filter P parts).
Proof.
  rewrite !Forall_forall. intros Hall x [_ Hx]%list_elem_of_filter. now apply Hall.
Qed.

(** A row after the whole batch: same name and type, and as field what is
    left of its observations once every value listed for its name is
    taken out. *)
Lemma fold_prune (deletions : list Deletion.t) :
  forall r : Sql.entity_row,
    foldl (fun r d => prune d r) r deletions
    = Sql.mkEntityRow (Sql.row_name r) (Sql.entity_type r)
        (Codec.join
           (filter (fun obs => obs ∉ removed_for (Sql.row_name r) deletions)
                   (Codec.parse_observations (Sql.row_observations r)))).
Proof.
  induction deletions as [|d rest IH]; intros r.
  - simpl. rewrite filter_all by (intros x _; apply not_elem_of_nil).
    rewrite join_parse_observations. now destruct r.
  - simpl foldl. rewrite IH, removed_for_cons. unfold prune.
    destruct (decide (Sql.row_name r = Deletion.entityName d)) as [E | Hne].
    + rewrite bool_decide_eq_true_2 by assumption.
      rewrite bool_decide_eq_true_2 by congruence. simpl. f_equal.
      rewrite join_filter_read_back
        by (apply comma_free_filter, comma_free_parse).
      rewrite list_filter_filter. f_equal. apply list_filter_iff.
      intros x. rewrite not_elem_of_app. tauto.
    + rewrite bool_decide_eq_false_2 by assumption.
      rewrite bool_decide_eq_false_2 by congruence. reflexivity.
Qed.

Lemma delete_observations_view (deletions : list Deletion.t) (c : connection) :
  NoDup (Sql.names_of (Sql.entities_table (view c))) ->
  let d := Sql.mkDatabase
             (map (fun r =>
                     Sql.mkEntityRow (Sql.row_name r) (Sql.entity_type r)
                       (Codec.join
                          (filter (fun obs => obs ∉ removed_for (Sql.row_name r) deletions)
                                  (Codec.parse_observations (Sql.row_observations r)))))
                  (Sql.entities_table (view c)))
             (Sql.relations_table (view c)) in
  delete_observations deletions c = (inr tt, mkConnection d d).
Proof.
  intros Hnd. cbv zeta. unfold delete_observations, bind.
  rewrite delete_observations_loop_result by assumption.
  rewrite foldl_rows.
  rewrite (map_ext _ _ (fold_prune deletions)). reflexivity.
Qed.

End DeleteObservations.

Section DeleteObservationsOutcome.

Lemma read_back_filtered (kept : list string) :
  Forall (fun o => Codec.comma_free o = true) kept ->
  Codec.parse_observations (Codec.join kept)
  = if decide (kept = [""]) then [] else kept.
Proof.
  intros Hfree. destruct (decide (kept = [""])) as [-> | Hne]; [reflexivity|].
  now apply parse_join.
Qed.

(** X8. With unique names, [delete_observations] returns and commits; every
    entity is then listed with its former observations less every value
    that some item of the batch lists for its name, in their old order,
    except that a lone empty observation left over is read as none at all.
    Names, types and relations stay. *)
Theorem delete_observations_removes_listed
    (deletions : list Deletion.t) (c : connection) :
  NoDup (Sql.names_of (Sql.entities_table (view c))) ->
  exists c' g,
    delete_observations deletions c = (inr tt, c')
    /\ read_graph c' = (inr g, c')
    /\ committed c' = view c'
    /\ Sql.relations_table (view c') = Sql.relations_table (view c)
    /\ entities g
       = map (fun row =>
                let kept :=
                  filter (fun obs => obs ∉ removed_for (Sql.row_name row) deletions)
                         (Codec.parse_observations (Sql.row_observations row)) in
                mkEntity (Sql.row_name row) (Sql.entity_type row)
                         (if decide (kept = [""]) then [] else kept))
             (Sql.entities_table (view c)).
Proof.
  intros Hnd. eexists. eexists.
  split; [now apply delete_observations_view|].
  split; [apply read_graph_result|].
  split; [reflexivity|]. split; [reflexivity|].
  cbn [entities view Sql.entities_table]. rewrite map_map. apply map_ext.
  intros row. unfold entity_of_row. cbn [Sql.row_name Sql.entity_type Sql.row_observations].
  f_equal. apply read_back_filtered, comma_free_filter, comma_free_parse.
Qed.

Lemma delete_observations_removes_listed_witness :
  exists c' g,
    delete_observations [Deletion.mk "Alice" ["a"; "zzz"]; Deletion.mk "Ghost" ["b"]]
      sample_connection
    = (inr tt, c')
    /\ read_graph c' = (inr g, c')
    /\ entities g = [mkEntity "Alice" "person" ["b"]; mkEntity "Bob" "person" []].
Proof.
  destruct (delete_observations_removes_listed
              [Deletion.mk "Alice" ["a"; "zzz"]; Deletion.mk "Ghost" ["b"]]
              sample_connection)
    as (c' & g & Hrun & Hread & _ & _ & Hents).
  - vm_compute. repeat constructor; rewrite ?elem_of_cons, ?elem_of_nil; intuition discriminate.
  - exists c', g. split; [exact Hrun|]. split; [exact Hread|].
    rewrite Hents. vm_compute. reflexivity.
Defined.

(** X9. [delete_observations] never raises, whatever the store and the
    batch: an item whose name is not stored is passed over, where
    [add_observations] would raise.  The names and the relations are what
    they were, the work is committed, and a batch that names no stored
    entity leaves the store as the connection showed it. *)
Theorem delete_observations_never_raises
    (deletions : list Deletion.t) (c : connection) :
  exists c',
    delete_observations deletions c = (inr tt, c')
    /\ committed c' = view c'
    /\ Sql.names_of (Sql.entities_table (view c'))
       = Sql.names_of (Sql.entities_table (view c))
    /\ Sql.relations_table (view c') = Sql.relations_table (view c)
    /\ ((forall d, d ∈ deletions ->
           Deletion.entityName d ∉ Sql.names_of (Sql.entities_table (view c))) ->
        view c' = view c).
Proof.
  destruct (delete_observations_loop_keys deletions c) as (d & Hrun & Hn & Hr).
  eexists. unfold delete_observations, bind. rewrite Hrun. simpl.
  split; [reflexivity|]. split; [reflexivity|]. split; [assumption|].
  split; [assumption|].
  intros Hunknown.
  assert (Hloop : delete_observations_loop deletions c = (inr tt, c)).
  { clear d Hrun Hn Hr. induction deletions as [|x rest IH].
    - now destruct c.
    - rewrite delete_observations_loop_cons.
      rewrite select_observations_none by (apply Hunknown; now left).
      apply IH. intros y Hy. apply Hunknown. now right. }
  rewrite Hloop in Hrun. injection Hrun as Hc.
  destruct c as [k v]. simpl in *. now injection Hc.
Qed.

(** X10. With unique names, a second [delete_observations] of the same
    batch changes nothing. *)
Theorem delete_observations_idempotent
    (deletions : list Deletion.t) (c c' : connection) :
  NoDup (Sql.names_of (Sql.entities_table (view c))) ->
  delete_observations deletions c = (inr tt, c') ->
  delete_observations deletions c' = (inr tt, c').
Proof.
  intros Hnd Hrun.
  rewrite (delete_observations_view deletions c Hnd) in Hrun.
  cbv zeta in Hrun. injection Hrun as <-.
  rewrite delete_observations_view; cbn [view Sql.entities_table Sql.relations_table].
  - cbv zeta. rewrite map_map.
    f_equal. f_equal; f_equal; apply map_ext; intros r;
      cbn [Sql.row_name Sql.entity_type Sql.row_observations]; f_equal;
      rewrite join_filter_read_back
        by (apply comma_free_filter, comma_free_parse);
      rewrite list_filter_filter; f_equal; apply list_filter_iff; intros x; tauto.
  - unfold Sql.names_of in *. rewrite map_map. exact Hnd.
Qed.

Lemma delete_observations_idempotent_witness :
  let deletions := [Deletion.mk "Alice" ["a"]] in
  delete_observations deletions (snd (delete_observations deletions sample_connection))
  = (inr tt, snd (delete_observations deletions sample_connection)).
Proof.
  intros deletions.
  apply (delete_observations_idempotent deletions sample_connection).
  - vm_compute. repeat constructor; rewrite ?elem_of_cons, ?elem_of_nil; intuition discriminate.
  - reflexivity.
Defined.

(** X11. Taking out again what [add_observations] has just appended to an
    entity gives back the store as the connection showed it, when the
    contents are storable and none of them was among the entity's
    observations before. *)
Theorem delete_observations_undoes_add
    (n : string) (new_contents : list string) (c : connection) :
  NoDup (Sql.names_of (Sql.entities_table (view c))) ->
  n ∈ Sql.names_of (Sql.entities_table (view c)) ->
  Codec.storable new_contents ->
  (forall row, row ∈ Sql.entities_table (view c) -> Sql.row_name row = n ->
     forall x, x ∈ new_contents ->
       x ∉ Codec.parse_observations (Sql.row_observations row)) ->
  exists added c1,
    add_observations [mkObservation n new_contents] c = (inr added, c1)
    /\ delete_observations [Deletion.mk n new_contents] c1
       = (inr tt, mkConnection (view c) (view c)).
Proof.
  intros Hnd Hn Hst Hnew. eexists. eexists. split.
  { unfold add_observations, bind.
    rewrite (add_observations_loop_ok [mkObservation n new_contents] ∅ c Hnd);
      [reflexivity|].
    intros o ->%list_elem_of_singleton. exact Hn. }
  unfold delete_observations, bind.
  rewrite delete_observations_loop_result
    by (cbn [view Sql.entities_table foldl]; now rewrite names_of_append_contents).
  cbn [view committed Sql.entities_table Sql.relations_table foldl commit].
  unfold commit. cbn [view]. f_equal.
  assert (Hrows : map (prune (Deletion.mk n new_contents))
                    (map (append_contents (mkObservation n new_contents))
                         (Sql.entities_table (view c)))
                  = Sql.entities_table (view c)).
  { rewrite map_map. rewrite <- (map_id (Sql.entities_table (view c))) at 2.
    apply map_ext_in. intros r Hr%list_elem_of_In.
    unfold append_contents, prune. cbn [entityName contents].
    destruct (decide (Sql.row_name r = n)) as [E | Hne].
    - rewrite (bool_decide_eq_true_2 _ E).
      cbn [Sql.row_name Deletion.entityName Deletion.observations
           Sql.entity_type Sql.row_observations].
      rewrite (bool_decide_eq_true_2 _ E).
      rewrite parse_join by now apply storable_parse_app.
      rewrite filter_app, filter_all, filter_none.
      + rewrite app_nil_r, join_parse_observations. now destruct r.
      + intros x Hx Hout. contradiction.
      + intros x Hx Hin. apply (Hnew r Hr E x Hin Hx).
    - rewrite (bool_decide_eq_false_2 _ Hne).
      cbn [Deletion.entityName]. now rewrite (bool_decide_eq_false_2 _ Hne). }
  rewrite Hrows. now destruct (view c).
Qed.

Lemma delete_observations_undoes_add_witness :
  exists added c1,
    add_observations [mkObservation "Alice" ["x"; "y"]] sample_connection
    = (inr added, c1)
    /\ delete_observations [Deletion.mk "Alice" ["x"; "y"]] c1
       = (inr tt, sample_connection).
Proof.
  apply (delete_observations_undoes_add "Alice" ["x"; "y"] sample_connection).
  - vm_compute. repeat constructor; rewrite ?elem_of_cons, ?elem_of_nil; intuition discriminate.
  - cbn. now left.
  - split; [repeat constructor | discriminate].
  - intros row Hrow Hname x Hx. cbn in Hrow.
    repeat (apply elem_of_cons in Hrow as [-> | Hrow];
            [cbn; rewrite ?elem_of_cons, ?elem_of_nil in *; intuition (subst; discriminate)|]).
    inversion Hrow.
Defined.

End DeleteObservationsOutcome.

(** ** [delete_relations] *)

Section DeleteRelations.

(** The loop never raises; it keeps the triples that are not in the batch,
    in their order, and commits nothing itself. *)
Lemma delete_relations_loop_result (batch : list Relation) :
  forall c : connection,
    delete_relations_loop batch c
    = (inr tt,
       mkConnection (committed c)
         (Sql.mkDatabase
            (Sql.entities_table (view c))
            (filter (fun r => r ∉ map row_of_relation batch)
                    (Sql.relations_table (view c))))).
Proof.
  induction batch as [|x rest IH]; intros c.
  - simpl. unfold ret. rewrite filter_all by (intros r _; apply not_elem_of_nil).
    now destruct c as [k [es rs]].
  - simpl delete_relations_loop. unfold bind at 1, execute at 1.
    rewrite IH. simpl. f_equal. f_equal. f_equal.
    rewrite list_filter_filter. apply list_filter_iff.
    intros r. rewrite not_elem_of_cons. tauto.
Qed.

Lemma delete_relations_view (batch : list Relation) (c : connection) :
  let d := Sql.mkDatabase
             (Sql.entities_table (view c))
             (filter (fun r => r ∉ map row_of_relation batch)
                     (Sql.relations_table (view c))) in
  delete_relations batch c = (inr tt, mkConnection d d).
Proof.
  unfold delete_relations, bind. now rewrite delete_relations_loop_result.
Qed.

Lemma elem_of_rows_of_relations (r : Relation) (batch : list Relation) :
  row_of_relation r ∈ map row_of_relation batch <-> r ∈ batch.
Proof.
  rewrite elem_of_map. split.
  - intros (x & E & Hx). apply row_of_relation_inj in E. now subst.
  - intros H. now exists r.
Qed.

(** X12. [delete_relations] never raises.  Afterwards [read_graph] lists the
    same entities, and of the relations it listed exactly those that are
    not in the batch; the work is committed.  A batch of which no triple is
    stored leaves the store as the connection showed it, and the same call
    again changes nothing. *)
Theorem delete_relations_exact (batch : list Relation) (c : connection) :
  exists c' g g0,
    delete_relations batch c = (inr tt, c')
    /\ read_graph c = (inr g0, c)
    /\ read_graph c' = (inr g, c')
    /\ entities g = entities g0
    /\ (forall r, r ∈ relations g <-> r ∈ relations g0 /\ (r ∉ batch))
    /\ committed c' = view c'
    /\ ((forall r, r ∈ batch -> r ∉ relations g0) -> view c' = view c)
    /\ delete_relations batch c' = (inr tt, c').
Proof.
  eexists. eexists. eexists.
  split; [apply delete_relations_view|].
  split; [apply read_graph_result|].
  split; [apply read_graph_result|].
  cbn [entities relations view committed Sql.entities_table Sql.relations_table].
  split; [reflexivity|]. split; [|split; [reflexivity|split]].
  - intros r. rewrite !elem_of_relations, list_elem_of_filter.
    rewrite elem_of_rows_of_relations. tauto.
  - intros Hnone. destruct (view c) as [es rs]. simpl in *. f_equal.
    apply filter_all. intros r Hr (x & -> & Hx)%elem_of_map.
    apply (Hnone x Hx). apply elem_of_relations. exact Hr.
  - rewrite delete_relations_view. cbv zeta.
    cbn [view Sql.entities_table Sql.relations_table].
    rewrite list_filter_filter.
    f_equal. f_equal; f_equal; apply list_filter_iff; intros x; tauto.
Qed.

(** X13. Deleting the batch that [create_relations] has just stored leaves
    the entities alone and, of the relations the connection showed before
    the two calls, those that are not in the batch: the triples the first
    call added are gone, and so are the triples of the batch that were
    stored before it. *)
Theorem delete_relations_after_create
    (batch created : list Relation) (c c' : connection) :
  create_relations batch c = (inr created, c') ->
  let d := Sql.mkDatabase
             (Sql.entities_table (view c))
             (filter (fun r => r ∉ map row_of_relation batch)
                     (Sql.relations_table (view c))) in
  delete_relations batch c' = (inr tt, mkConnection d d)
  /\ ((forall r, r ∈ batch -> row_of_relation r ∉ Sql.relations_table (view c)) ->
      d = view c).
Proof.
  intros Hrun.
  destruct (create_relations_cases batch c)
    as [(fresh & Hok & _ & Hfresh & _) | (pre & x & post & n & _ & _ & _ & Hfail)];
    [|rewrite Hfail in Hrun; discriminate].
  cbv zeta in Hok. rewrite Hok in Hrun. injection Hrun as <- <-.
  cbv zeta. split.
  - rewrite delete_relations_view. cbv zeta.
    cbn [view Sql.entities_table Sql.relations_table].
    rewrite filter_app.
    rewrite (filter_none _ (map row_of_relation fresh)), app_nil_r; [reflexivity|].
    intros r (x & -> & Hx)%elem_of_map Hout. apply Hout.
    apply elem_of_rows_of_relations. now apply Hfresh.
  - intros Hnew. destruct (view c) as [es rs]. simpl in *. f_equal.
    apply filter_all. intros r Hr (x & -> & Hx)%elem_of_map.
    now apply (Hnew x Hx).
Qed.

Lemma delete_relations_after_create_witness :
  let batch := [mkRelation "Bob" "Alice" "knows"; mkRelation "Bob" "Bob" "is"] in
  delete_relations batch (snd (create_relations batch sample_connection))
  = (inr tt, sample_connection).
Proof.
  intros batch.
  destruct (delete_relations_after_create batch batch sample_connection
              (snd (create_relations batch sample_connection)))
    as [Hrun _]; [reflexivity|].
  rewrite Hrun. reflexivity.
Defined.

End DeleteRelations.

(** ** More on [open_nodes] and [search_nodes] *)

Section QueriesMore.

Import Like.

(** [search_nodes] for a query that passes the guard: the rows the LIKE
    selects, in table order, and the relations between their names, in the
    planner's order. *)
Lemma search_nodes_exact (plan : Sql.arrangement) (query_string : string)
    (c : connection) :
  query_string <> "" ->
  let rows := Sql.select_entities_like (search_pattern query_string) (view c) in
  exists edges,
    search_nodes plan query_string c
    = (inr (mkGraph (map entity_of_row rows) (map relation_of_row edges)), c)
    /\ edges
       ≡ₚ filter (fun r => Sql.from_entity r ∈ Sql.names_of rows
                           /\ Sql.to_entity r ∈ Sql.names_of rows)
                 (Sql.relations_table (view c)).
Proof.
  intros Hq rows. unfold search_nodes.
  rewrite bool_decide_eq_false_2 by assumption.
  unfold bind at 1. unfold query at 1.
  rewrite collect_matches_spec. fold rows. simpl app.
  unfold bind, query, ret. eexists. split; [reflexivity|].
  unfold Sql.select_relations_among. rewrite Sql.arrange_relations_among_perm.
  erewrite list_filter_iff; [reflexivity|]. intros r.
  rewrite andb_true_iff, !sql_in_true, !select_names_in_spec.
  assert (Hsub : forall x, x ∈ Sql.names_of rows ->
                           x ∈ Sql.names_of (Sql.entities_table (view c))).
  { intros x (row & -> & [_ Hrow]%list_elem_of_filter)%elem_of_map.
    apply elem_of_map. now exists row. }
  assert (Hset : forall x, x ∈ elements (list_to_set (Sql.names_of rows) ∪ (∅ : gset string))
                           <-> x ∈ Sql.names_of rows).
  { intros x. rewrite elem_of_elements. set_solver. }
  rewrite !Hset. naive_solver.
Qed.

(** [open_nodes], up to the order of the rows. *)
Lemma open_nodes_up_to_order (plan : Sql.arrangement) (names : list string)
    (c : connection) :
  exists g,
    open_nodes plan names c = (inr g, c)
    /\ same_graph g
         (mkGraph
            (map entity_of_row
               (filter (fun r => Sql.row_name r ∈ names) (Sql.entities_table (view c))))
            (map relation_of_row
               (filter (fun r => Sql.from_entity r ∈ names /\ Sql.to_entity r ∈ names)
                       (Sql.relations_table (view c))))).
Proof.
  rewrite open_nodes_result. eexists. split; [reflexivity|]. split; simpl.
  - apply Permutation_map, select_entities_in_perm.
  - apply Permutation_map, select_relations_in_perm.
Qed.

Lemma same_graph_trans (g1 g2 g3 : Graph) :
  same_graph g1 g2 -> same_graph g2 g3 -> same_graph g1 g3.
Proof. intros [E1 R1] [E2 R2]. split; etransitivity; eassumption. Qed.

Lemma same_graph_sym (g1 g2 : Graph) : same_graph g1 g2 -> same_graph g2 g1.
Proof. intros [E R]. now split. Qed.

(** X14. The order in which the names are given to [open_nodes] does not
    matter, nor does the planner: the results hold the same entities and
    the same relations, each as often. *)
Theorem open_nodes_names_in_any_order
    (plan plan' : Sql.arrangement) (names names' : list string) (c : connection) :
  names ≡ₚ names' ->
  exists g g',
    open_nodes plan names c = (inr g, c)
    /\ open_nodes plan' names' c = (inr g', c)
    /\ same_graph g g'.
Proof.
  intros Hsame.
  destruct (open_nodes_up_to_order plan names c) as (g & Hrun & Hg).
  destruct (open_nodes_up_to_order plan' names' c) as (g' & Hrun' & Hg').
  exists g, g'. split; [exact Hrun|]. split; [exact Hrun'|].
  apply (same_graph_trans _ _ _ Hg). apply same_graph_sym.
  apply (same_graph_trans _ _ _ Hg').
  assert (Hin : forall n, n ∈ names' <-> n ∈ names) by (intros n; now rewrite Hsame).
  split; simpl.
  - erewrite list_filter_iff; [reflexivity|]. intros r. apply Hin.
  - erewrite list_filter_iff; [reflexivity|]. intros r. now rewrite !Hin.
Qed.

Lemma open_nodes_names_in_any_order_witness :
  exists g g',
    open_nodes Sql.index_order ["Zed"; "Alice"] two_rooms_connection
    = (inr g, two_rooms_connection)
    /\ open_nodes Sql.index_order ["Alice"; "Zed"] two_rooms_connection
       = (inr g', two_rooms_connection)
    /\ same_graph g g'.
Proof.
  apply (open_nodes_names_in_any_order Sql.index_order Sql.index_order
           ["Zed"; "Alice"] ["Alice"; "Zed"] two_rooms_connection).
  apply Permutation_swap.
Defined.

(** X15. Asked for the names of all stored entities, [open_nodes] returns
    the entities and the relations that [read_graph] returns, each as
    often, in the planner's order, when the relations only join stored
    entities. *)
Theorem open_nodes_all_names (plan : Sql.arrangement) (c : connection) :
  (forall r, r ∈ Sql.relations_table (view c) ->
     Sql.from_entity r ∈ Sql.names_of (Sql.entities_table (view c))
     /\ Sql.to_entity r ∈ Sql.names_of (Sql.entities_table (view c))) ->
  exists g g_all,
    open_nodes plan (Sql.names_of (Sql.entities_table (view c))) c = (inr g, c)
    /\ read_graph c = (inr g_all, c)
    /\ same_graph g g_all.
Proof.
  intros Hends.
  destruct (open_nodes_up_to_order plan (Sql.names_of (Sql.entities_table (view c))) c)
    as (g & Hrun & Hg).
  exists g. eexists. split; [exact Hrun|]. split; [apply read_graph_result|].
  apply (same_graph_trans _ _ _ Hg).
  rewrite !filter_all; [now split | exact Hends |].
  intros r Hr. apply elem_of_map. now exists r.
Qed.

Lemma open_nodes_all_names_witness :
  exists g g_all,
    open_nodes Sql.index_order ["Zed"; "Alice"; "Mid"] two_rooms_connection
    = (inr g, two_rooms_connection)
    /\ read_graph two_rooms_connection = (inr g_all, two_rooms_connection)
    /\ same_graph g g_all.
Proof.
  apply (open_nodes_all_names Sql.index_order two_rooms_connection).
  intros r Hr. cbn in Hr.
  repeat (apply elem_of_cons in Hr as [-> | Hr];
          [cbn; rewrite !elem_of_cons; auto|]).
  inversion Hr.
Defined.

(** X16. For a query that passes the guard, [search_nodes] reads only: the
    connection is as before.  The relations it returns are exactly the
    stored ones whose two ends are both names of entities it returns. *)
Theorem search_nodes_relations
    (plan : Sql.arrangement) (query_string : string) (c : connection) :
  query_string <> "" ->
  exists g,
    search_nodes plan query_string c = (inr g, c)
    /\ forall r, r ∈ relations g <->
         row_of_relation r ∈ Sql.relations_table (view c)
         /\ from_ r ∈ map name (entities g) /\ to r ∈ map name (entities g).
Proof.
  intros Hq. destruct (search_nodes_exact plan _ c Hq) as (edges & -> & Hedges).
  eexists. split; [reflexivity|]. intros r. cbn [entities relations].
  rewrite elem_of_relations, Hedges, list_elem_of_filter, names_of_entities.
  destruct r; simpl. tauto.
Qed.

Lemma search_nodes_relations_witness :
  exists g,
    search_nodes Sql.index_order "o" sample_connection = (inr g, sample_connection)
    /\ mkRelation "Alice" "Bob" "knows" ∈ relations g.
Proof.
  destruct (search_nodes_relations Sql.index_order "o" sample_connection)
    as (g & Hrun & Hrel); [discriminate|].
  exists g. split; [exact Hrun|]. apply Hrel.
  vm_compute in Hrun. injection Hrun as <-. cbn.
  rewrite !elem_of_cons. auto.
Defined.

(** X17. With unique names, what [search_nodes] returns for a query that
    passes the guard holds the same entities and the same relations, each
    as often, as what [open_nodes] returns for the names of the entities
    found; the two may order their rows differently. *)
Theorem search_nodes_is_open_nodes
    (plan plan' : Sql.arrangement) (query_string : string) (c : connection) :
  NoDup (Sql.names_of (Sql.entities_table (view c))) ->
  query_string <> "" ->
  exists g g',
    search_nodes plan query_string c = (inr g, c)
    /\ open_nodes plan' (map name (entities g)) c = (inr g', c)
    /\ same_graph g g'.
Proof.
  intros Hnd Hq.
  destruct (search_nodes_exact plan _ c Hq) as (edges & Hrun & Hedges).
  cbv zeta in *. eexists.
  destruct (open_nodes_up_to_order plan'
              (map name (map entity_of_row
                 (Sql.select_entities_like (search_pattern query_string) (view c)))) c)
    as (g' & Hrun' & Hg').
  exists g'. split; [exact Hrun|]. split; [exact Hrun'|].
  apply same_graph_sym, (same_graph_trans _ _ _ Hg').
  rewrite names_of_entities. split; cbn [entities relations].
  - apply Permutation_map. unfold Sql.select_entities_like.
    erewrite filter_ext_in; [reflexivity|]. intros x Hx. split.
    + intros (y & E & [Hy Hin]%list_elem_of_filter)%elem_of_map.
      assert (x = y) as -> by
        (apply (NoDup_map_inj Sql.row_name (Sql.entities_table (view c))); assumption).
      exact Hy.
    + intros Hlike. apply elem_of_map. exists x. split; [reflexivity|].
      now apply list_elem_of_filter.
  - apply Permutation_map. now symmetry.
Qed.

Lemma search_nodes_is_open_nodes_witness :
  exists g g',
    search_nodes Sql.index_order "person" two_rooms_connection
    = (inr g, two_rooms_connection)
    /\ open_nodes Sql.index_order (map name (entities g)) two_rooms_connection
       = (inr g', two_rooms_connection)
    /\ same_graph g g'.
Proof.
  apply (search_nodes_is_open_nodes Sql.index_order Sql.index_order
           "person" two_rooms_connection).
  - vm_compute. repeat constructor; rewrite ?elem_of_cons, ?elem_of_nil; intuition discriminate.
  - discriminate.
Defined.

End QueriesMore.

(** ** Wildcards and letter case in the query *)

Section QueryText.

Import Like.

Lemma like_cons_all (pattern text : string) :
  like (String match_all pattern) text
  = like pattern text
    || match text with
       | EmptyString => false
       | String _ text' => like (String match_all pattern) text'
       end.
Proof. now destruct text. Qed.

Lemma like_cons_literal (p : ascii) (pattern text : string) :
  Ascii.eqb p match_all = false -> Ascii.eqb p match_one = false ->
  like (String p pattern) text
  = match text with
    | EmptyString => false
    | String c text' => Ascii.eqb (to_lower p) (to_lower c) && like pattern text'
    end.
Proof. intros Hall Hone. simpl. now rewrite Hall, Hone. Qed.

(** A pattern of ['%'] only accepts every text. *)
Lemma like_only_match_all (pattern text : string) :
  pattern <> "" -> only_match_all pattern = true -> like pattern text = true.
Proof.
  revert text. induction pattern as [|p pattern IH]; intros text Hne Hall;
    [congruence|].
  simpl in Hall. apply andb_true_iff in Hall as [Hp Hall].
  apply Ascii.eqb_eq in Hp. subst p.
  destruct pattern as [|p' pattern]; [apply like_match_all_last|].
  rewrite like_cons_all. rewrite IH by (discriminate || assumption). reflexivity.
Qed.

Lemma only_match_all_append (a b : string) :
  only_match_all (a +:+ b) = only_match_all a && only_match_all b.
Proof.
  induction a as [|x a IH]; [reflexivity|].
  rewrite append_cons. simpl. now rewrite IH, andb_assoc.
Qed.

Lemma only_match_all_nul_free (s : string) :
  only_match_all s = true -> nul_free s = true.
Proof.
  induction s as [|c s IH]; [reflexivity|]. simpl.
  intros [Hc Hs]%andb_true_iff. apply Ascii.eqb_eq in Hc. subst c.
  now rewrite IH.
Qed.

(** X18. A query made of ['%'] only finds every entity: when the relations
    only join stored entities, [search_nodes] then returns the entities
    and the relations that [read_graph] returns, each as often, the
    relations in the planner's order. *)
Theorem search_nodes_match_all
    (plan : Sql.arrangement) (query_string : string) (c : connection) :
  query_string <> "" ->
  only_match_all query_string = true ->
  (forall r, r ∈ Sql.relations_table (view c) ->
     Sql.from_entity r ∈ Sql.names_of (Sql.entities_table (view c))
     /\ Sql.to_entity r ∈ Sql.names_of (Sql.entities_table (view c))) ->
  exists g g_all,
    search_nodes plan query_string c = (inr g, c)
    /\ read_graph c = (inr g_all, c)
    /\ same_graph g g_all.
Proof.
  intros Hq Hall Hends.
  destruct (search_nodes_exact plan _ c Hq) as (edges & Hrun & Hedges).
  cbv zeta in *.
  assert (Hrows : Sql.select_entities_like (search_pattern query_string) (view c)
                  = Sql.entities_table (view c)).
  { unfold Sql.select_entities_like. apply filter_all. intros r _.
    assert (Hpat : only_match_all (search_pattern query_string) = true).
    { unfold search_pattern. simpl. now rewrite only_match_all_append, Hall. }
    unfold Sql.row_like, like_operator.
    rewrite (c_string_nul_free _ (only_match_all_nul_free _ Hpat)).
    rewrite like_only_match_all; [reflexivity | discriminate | exact Hpat]. }
  rewrite Hrows in Hrun, Hedges.
  eexists. eexists. split; [exact Hrun|]. split; [apply read_graph_result|].
  split; cbn [entities relations]; [reflexivity|].
  apply Permutation_map. rewrite Hedges. now rewrite filter_all.
Qed.

Lemma search_nodes_match_all_witness :
  exists g g_all,
    search_nodes Sql.index_order "%" two_rooms_connection
    = (inr g, two_rooms_connection)
    /\ read_graph two_rooms_connection = (inr g_all, two_rooms_connection)
    /\ same_graph g g_all.
Proof.
  apply (search_nodes_match_all Sql.index_order "%" two_rooms_connection).
  - discriminate.
  - reflexivity.
  - intros r Hr. cbn in Hr.
    repeat (apply elem_of_cons in Hr as [-> | Hr];
            [cbn; rewrite !elem_of_cons; auto|]).
    inversion Hr.
Defined.

(** Folding a character to lower case never makes a wildcard of it, nor
    the end of a C string. *)
Lemma to_lower_wildcard (c : ascii) :
  (to_lower c = match_all -> c = match_all)
  /\ (to_lower c = match_one -> c = match_one).
Proof.
  destruct c as [[] [] [] [] [] [] [] []];
    split; intros H; vm_compute in H; try discriminate H; reflexivity.
Qed.

Lemma to_lower_nul (c : ascii) : to_lower c = nul -> c = nul.
Proof.
  destruct c as [[] [] [] [] [] [] [] []];
    intros H; vm_compute in H; try discriminate H; reflexivity.
Qed.

Lemma fold_case_c_string (s : string) :
  forall s', fold_case s = fold_case s' ->
             fold_case (c_string s) = fold_case (c_string s').
Proof.
  induction s as [|a s IH]; intros [|b s'] E; try discriminate E; [reflexivity|].
  simpl in E. injection E as Hab E. simpl.
  destruct (Ascii.eqb a nul) eqn:Ha, (Ascii.eqb b nul) eqn:Hb.
  - reflexivity.
  - exfalso. apply Ascii.eqb_eq in Ha. subst a. apply Ascii.eqb_neq in Hb.
    apply Hb, to_lower_nul. now rewrite <- Hab.
  - exfalso. apply Ascii.eqb_eq in Hb. subst b. apply Ascii.eqb_neq in Ha.
    apply Ha, to_lower_nul. now rewrite Hab.
  - simpl. now rewrite Hab, (IH s' E).
Qed.

Lemma to_lower_same_wildcard (a b : ascii) :
  to_lower a = to_lower b ->
  Ascii.eqb a match_all = Ascii.eqb b match_all
  /\ Ascii.eqb a match_one = Ascii.eqb b match_one.
Proof.
  intros E. split.
  - destruct (Ascii.eqb a match_all) eqn:Ha, (Ascii.eqb b match_all) eqn:Hb;
      try reflexivity; exfalso.
    + apply Ascii.eqb_eq in Ha. subst a. apply Ascii.eqb_neq in Hb. apply Hb.
      apply to_lower_wildcard. now rewrite <- E.
    + apply Ascii.eqb_eq in Hb. subst b. apply Ascii.eqb_neq in Ha. apply Ha.
      apply to_lower_wildcard. now rewrite E.
  - destruct (Ascii.eqb a match_one) eqn:Ha, (Ascii.eqb b match_one) eqn:Hb;
      try reflexivity; exfalso.
    + apply Ascii.eqb_eq in Ha. subst a. apply Ascii.eqb_neq in Hb. apply Hb.
      apply to_lower_wildcard. now rewrite <- E.
    + apply Ascii.eqb_eq in Hb. subst b. apply Ascii.eqb_neq in Ha. apply Ha.
      apply to_lower_wildcard. now rewrite E.
Qed.

(** Patterns that differ by the case of ASCII letters accept the same
    texts. *)
Lemma like_fold_case (pattern : string) :
  forall pattern' text,
    fold_case pattern = fold_case pattern' ->
    like pattern text = like pattern' text.
Proof.
  induction pattern as [|a pattern IH]; intros [|b pattern'] text E;
    try discriminate E; [reflexivity|].
  simpl in E. injection E as Hab E.
  destruct (to_lower_same_wildcard a b Hab) as [Hall Hone].
  destruct (Ascii.eqb a match_all) eqn:Ha.
  - apply Ascii.eqb_eq in Ha. symmetry in Hall. apply Ascii.eqb_eq in Hall.
    subst a b. induction text as [|c text IHt].
    + rewrite !like_cons_all. now rewrite (IH pattern' "" E).
    + rewrite (like_cons_all pattern), (like_cons_all pattern').
      now rewrite IHt, (IH pattern' _ E).
  - destruct (Ascii.eqb a match_one) eqn:Hb.
    + apply Ascii.eqb_eq in Hb. symmetry in Hone. apply Ascii.eqb_eq in Hone.
      subst a b. destruct text as [|c text]; [reflexivity|].
      simpl. apply IH, E.
    + rewrite !like_cons_literal by congruence.
      destruct text as [|c text]; [reflexivity|].
      now rewrite Hab, (IH pattern' text E).
Qed.

Lemma fold_case_append (a b : string) :
  fold_case (a +:+ b) = fold_case a +:+ fold_case b.
Proof.
  induction a as [|x a IH]; [reflexivity|].
  rewrite append_cons. simpl. now rewrite IH.
Qed.

(** X19. Two queries that differ by the case of ASCII letters only get the
    same outcome from [search_nodes], on every store. *)
Theorem search_nodes_ignores_case
    (plan : Sql.arrangement) (q q' : string) (c : connection) :
  fold_case q = fold_case q' ->
  search_nodes plan q c = search_nodes plan q' c.
Proof.
  intros E.
  assert (Hempty : q = "" <-> q' = "").
  { destruct q, q'; simpl in E; try discriminate E; split; congruence. }
  assert (Hrows : Sql.select_entities_like (search_pattern q) (view c)
                  = Sql.select_entities_like (search_pattern q') (view c)).
  { unfold Sql.select_entities_like. apply list_filter_iff. intros r.
    unfold Sql.row_like, like_operator.
    assert (Hp : fold_case (c_string (search_pattern q))
                 = fold_case (c_string (search_pattern q'))).
    { apply fold_case_c_string. unfold search_pattern. simpl.
      now rewrite !fold_case_append, E. }
    now rewrite !(like_fold_case _ _ _ Hp). }
  unfold search_nodes.
  destruct (decide (q = "")) as [Hq | Hq].
  - rewrite (bool_decide_eq_true_2 _ Hq).
    now rewrite (bool_decide_eq_true_2 _ (proj1 Hempty Hq)).
  - rewrite (bool_decide_eq_false_2 _ Hq).
    rewrite bool_decide_eq_false_2 by (intros H; apply Hq, Hempty, H).
    unfold bind at 1 3. unfold query at 1 3. now rewrite Hrows.
Qed.

Lemma search_nodes_ignores_case_witness :
  search_nodes Sql.index_order "ALICE" sample_connection
  = search_nodes Sql.index_order "alice" sample_connection.
Proof.
  apply (search_nodes_ignores_case Sql.index_order "ALICE" "alice" sample_connection).
  reflexivity.
Defined.

End QueryText.

(** ** The path handed to [__init__] *)

Section LocationFacts.

Import Location.



Lemma lstrip_separators (k : nat) : lstrip (separators k) = "".
Proof. induction k as [|k IH]; [reflexivity | exact IH]. Qed.

(** X21. A path of separators only passes the guard of [__init__] and
    leaves the empty file name, with no directory to make, whatever the
    library would answer. *)
Theorem init_only_separators (lib : library) (k : nat) :
  init lib (separators (S k)) = inr (Filename "").
Proof.
  unfold init. rewrite bool_decide_eq_false_2 by discriminate.
  cbv zeta. now rewrite lstrip_separators.
Qed.

End LocationFacts.

(** ** More on reachable connections *)

Section ReachableMore.

(** X22. Whatever calls a client makes, from a new file on, and whether
    they return or raise, the committed store and what the connection
    shows both keep names unique, triples unique, and every relation
    between stored entities; and what is not yet committed concerns types
    and observations only: the connection shows the names, in their order,
    and the relations of the committed store. *)
Theorem reachable_keeps_schema (c : connection) :
  reachable c ->
  consistent (committed c)
  /\ consistent (view c)
  /\ Sql.names_of (Sql.entities_table (view c))
     = Sql.names_of (Sql.entities_table (committed c))
  /\ Sql.relations_table (view c) = Sql.relations_table (committed c).
Proof.
  intros [Hk Hkeys]%reachable_invariant. split; [assumption|].
  split; [apply (consistent_same_keys _ _ Hkeys Hk)|].
  destruct Hkeys as [Hnames Hrels]. split; assumption.
Qed.

Lemma reachable_keeps_schema_witness :
  let c := connection_after
             (AddObservations [mkObservation "Bob" ["seen"]; mkObservation "Ghost" ["boo"]])
             (connection_after (DeleteEntities ["Alice"]) sample_connection) in
  view c <> committed c
  /\ consistent (view c)
  /\ Sql.names_of (Sql.entities_table (view c))
     = Sql.names_of (Sql.entities_table (committed c)).
Proof.
  intros c. split; [vm_compute; discriminate|].
  destruct (reachable_keeps_schema c) as (_ & Hview & Hnames & _);
    [|split; assumption].
  do 2 apply reachable_after.
  change sample_connection
    with (connection_after
            (CreateRelations [mkRelation "Alice" "Bob" "knows"])
            (connection_after
               (CreateEntities [mkEntity "Alice" "person" ["a"; "b"];
                                mkEntity "Bob" "person" []])
               fresh_connection)).
  repeat constructor.
Defined.

(** X23. Once [delete_entities] has run, [create_relations] refuses every
    batch that holds a relation with a deleted name at either end: it
    raises not-found for a name that is not stored, and leaves the store
    as the deletion committed it. *)
Theorem create_relations_after_delete
    (entityNames : list string) (batch : list Relation) (r : Relation)
    (c c' : connection) :
  delete_entities entityNames c = (inr tt, c') ->
  r ∈ batch ->
  from_ r ∈ entityNames \/ to r ∈ entityNames ->
  exists n,
    create_relations batch c' = (inl (EntityNotFoundError n), c')
    /\ n ∉ Sql.names_of (Sql.entities_table (view c')).
Proof.
  intros Hdel Hr Hend.
  rewrite delete_entities_result in Hdel. cbv zeta in Hdel. injection Hdel as <-.
  set (c' := mkConnection _ _).
  assert (Hgone : forall n, n ∈ entityNames ->
                            n ∉ Sql.names_of (Sql.entities_table (view c'))).
  { intros n Hn (row & -> & [Hout _]%list_elem_of_filter)%elem_of_map.
    contradiction. }
  destruct (create_relations_cases batch c')
    as [(fresh & _ & Hall & _) | (pre & x & post & n & _ & _ & Hn & Hfail)].
  - exfalso. destruct (Hall r Hr) as [Hfrom Hto].
    destruct Hend as [H | H]; now apply (Hgone _ H).
  - exists n. split; [exact Hfail|].
    destruct Hn as [[-> H] | (-> & _ & H)]; exact H.
Qed.

Lemma create_relations_after_delete_witness :
  exists n c',
    delete_entities ["Bob"] sample_connection = (inr tt, c')
    /\ create_relations [mkRelation "Alice" "Bob" "knows"] c'
       = (inl (EntityNotFoundError n), c').
Proof.
  destruct (create_relations_after_delete
              ["Bob"] [mkRelation "Alice" "Bob" "knows"]
              (mkRelation "Alice" "Bob" "knows")
              sample_connection
              (snd (delete_entities ["Bob"] sample_connection)))
    as (n & Hrun & _).
  - reflexivity.
  - now left.
  - right. now left.
  - exists n. eexists. split; [reflexivity | exact Hrun].
Defined.

End ReachableMore.
